(** * Swan: application state machine, constraint statements and the
    janitor's upstream registry

    A shallow embedding of
    - [src/manager/framework/state/app_state_machine.go],
    - [src/manager/framework/state/constraints.go],
    - [src/janitor/upstream.go],
    together with the properties of these three files that the
    specification states. *)

From stdpp Require Import base option list strings gmap.

Open Scope string_scope.

(** ** Outcomes of Go calls

    A Go call either returns or panics; the panic carries its message. *)

Inductive result (A : Type) : Type :=
  | Ok (a : A)
  | Panic (msg : string).
Arguments Ok {A} a.
Arguments Panic {A} msg.

Definition is_Ok {A} (r : result A) : bool :=
  match r with Ok _ => true | Panic _ => false end.

(** The message of the runtime error raised by a nil dereference. *)
Definition nil_deref : string :=
  "invalid memory address or nil pointer dereference".

(** * Package state: app_state_machine.go *)

Module StateMachine.

(** The state names, [APP_STATE_*]. *)
Definition APP_STATE_NORMAL : string := "normal".
Definition APP_STATE_CREATING : string := "creating".
Definition APP_STATE_DELETING : string := "deleting".
Definition APP_STATE_UPDATING : string := "updating".
Definition APP_STATE_CANCEL_UPDATE : string := "cancel_update".
Definition APP_STATE_SCALE_UP : string := "scale_up".
Definition APP_STATE_SCALE_DOWN : string := "scale_down".

(** Modelled from the spec: the implementations of the interface [State] are
    not part of the sources at hand. They are the seven states of section
    4.4, one for each constant above, which it answers to [Name()] with;
    [StateFactory] below builds five of them. *)
Inductive State : Type :=
  | StateNormal
  | StateCreating
  | StateDeleting
  | StateUpdating
  | StateCancelUpdate
  | StateScaleUp
  | StateScaleDown.

#[global] Instance State_eq_dec : EqDecision State.
Proof. solve_decision. Defined.

Definition Name (s : State) : string :=
  match s with
  | StateNormal => APP_STATE_NORMAL
  | StateCreating => APP_STATE_CREATING
  | StateDeleting => APP_STATE_DELETING
  | StateUpdating => APP_STATE_UPDATING
  | StateCancelUpdate => APP_STATE_CANCEL_UPDATE
  | StateScaleUp => APP_STATE_SCALE_UP
  | StateScaleDown => APP_STATE_SCALE_DOWN
  end.

(** Modelled from the spec: the bodies of [CanTransitTo] of the seven states
    are not part of the sources at hand; this is the table of section 4.4,
    row by row ([deleting] is terminal and has no row). *)
Definition CanTransitTo_table (s : State) (targetState : string) : bool :=
  match s with
  | StateCreating | StateScaleUp | StateScaleDown | StateCancelUpdate =>
      String.eqb targetState APP_STATE_NORMAL
      || String.eqb targetState APP_STATE_DELETING
  | StateNormal =>
      String.eqb targetState APP_STATE_SCALE_UP
      || String.eqb targetState APP_STATE_SCALE_DOWN
      || String.eqb targetState APP_STATE_UPDATING
      || String.eqb targetState APP_STATE_DELETING
  | StateUpdating =>
      String.eqb targetState APP_STATE_NORMAL
      || String.eqb targetState APP_STATE_CANCEL_UPDATE
      || String.eqb targetState APP_STATE_DELETING
  | StateDeleting => false
  end.

(** The calls of the hooks of a state, in the order they are made: what
    [OnEnter] and [OnExit] do is the business of each state. *)
Inductive Hook : Type :=
  | OnExit (s : State)
  | OnEnter (s : State).

(** [machine.state] is nil until [Start]; [lock] is true while the mutex is
    held. *)
Record StateMachine : Type := mkStateMachine {
  state : option State;
  lock : bool;
  hooks : list Hook;
}.

Definition NewStateMachine : StateMachine :=
  {| state := None; lock := false; hooks := [] |}.

Definition Start (machine : StateMachine) : StateMachine :=
  {| state := Some StateCreating;
     lock := lock machine;
     hooks := hooks machine ++ [OnEnter StateCreating] |}.

Definition ReadableState (machine : StateMachine) : result string :=
  match state machine with
  | Some s => Ok (Name s)
  | None => Panic nil_deref
  end.

Definition Is (machine : StateMachine) (stateExpected : string) : result bool :=
  match state machine with
  | Some s => Ok (String.eqb (Name s) stateExpected)
  | None => Panic nil_deref
  end.

(** The switch of [StateFactory]: five cases and a default that panics. *)
Definition StateFactory (stateName : string) : result State :=
  if String.eqb stateName APP_STATE_NORMAL then Ok StateNormal
  else if String.eqb stateName APP_STATE_CREATING then Ok StateCreating
  else if String.eqb stateName APP_STATE_DELETING then Ok StateDeleting
  else if String.eqb stateName APP_STATE_SCALE_UP then Ok StateScaleUp
  else if String.eqb stateName APP_STATE_SCALE_DOWN then Ok StateScaleDown
  else Panic "unrecognized state".

(** How a call of [TransitTo] ends: it returns an error value (nil is [None]),
    it panics, or it waits for a mutex nobody releases. *)
Inductive outcome : Type :=
  | Returned (err : option string) (machine : StateMachine)
  | Panicked (msg : string) (machine : StateMachine)
  | Blocked (machine : StateMachine).

Section TransitTo.

(** [CanTransitTo] of the state implementations. *)
Variable CanTransitTo : State → string → bool.

Definition TransitTo (machine : StateMachine) (targetStateString : string)
  : outcome :=
  match state machine with
  | None => Panicked nil_deref machine
  | Some s =>
      if CanTransitTo s targetStateString then
        if lock machine then Blocked machine
        else
          (* machine.lock.Lock(); machine.state.OnExit() *)
          let exited :=
            {| state := Some s; lock := true;
               hooks := hooks machine ++ [OnExit s] |} in
          match StateFactory targetStateString with
          | Panic msg => Panicked msg exited
          | Ok s' =>
              (* machine.state = s'; s'.OnEnter(); machine.lock.Unlock() *)
              Returned None
                {| state := Some s'; lock := false;
                   hooks := hooks exited ++ [OnEnter s'] |}
          end
      else
        Returned
          (Some ("cann't transit from state: " ++ Name s
                 ++ " to state: " ++ targetStateString))
          machine
  end.

End TransitTo.

(** The machines a program gets to: [Start] was called, and then [TransitTo]
    any number of times, the calls that panicked having been recovered. *)
Inductive started (CanTransitTo : State → string → bool)
  : StateMachine → Prop :=
  | started_Start machine : started CanTransitTo (Start machine)
  | started_return machine targetStateString err machine' :
      started CanTransitTo machine →
      TransitTo CanTransitTo machine targetStateString = Returned err machine' →
      started CanTransitTo machine'
  | started_panic machine targetStateString msg machine' :
      started CanTransitTo machine →
      TransitTo CanTransitTo machine targetStateString = Panicked msg machine' →
      started CanTransitTo machine'.

End StateMachine.

(** * Go's package strings: the two functions the sources call *)

Module GoStrings.

Fixpoint HasPrefix (s prefix : string) : bool :=
  match prefix, s with
  | EmptyString, _ => true
  | String c prefix', String d s' => Ascii.eqb c d && HasPrefix s' prefix'
  | String _ _, EmptyString => false
  end.

(** [strings.Contains(s, substr)]: [substr] occurs at some offset of [s]. *)
Fixpoint Contains (s substr : string) : bool :=
  HasPrefix s substr
  || match s with
     | EmptyString => false
     | String _ s' => Contains s' substr
     end.

(** [strings.HasSuffix(s, suffix)]:
    [len(s) >= len(suffix) && s[len(s)-len(suffix):] == suffix]. *)
Definition HasSuffix (s suffix : string) : bool :=
  (String.length suffix <=? String.length s)%nat
  && String.eqb
       (String.substring (String.length s - String.length suffix)
          (String.length suffix) s)
       suffix.

End GoStrings.

(** * Package state: constraints.go *)

Module Constraints.

(** ** What the statements are evaluated against *)

(** Modelled from the spec: the generated package [mesos] is not part of the
    sources at hand. An offer "carries agent identity, hostname, and a list of
    typed attributes"; every field the statements read is a pointer in the
    generated code, absent when nil, and the [Get*] accessors answer the zero
    value on a nil receiver or a nil field. *)
Inductive Value_Type : Type :=
  | Value_SCALAR
  | Value_RANGES
  | Value_SET
  | Value_TEXT.

#[global] Instance Value_Type_eq_dec : EqDecision Value_Type.
Proof. solve_decision. Defined.

(** Modelled from the spec: the "agent identity" of an offer; [Value] is a
    [*string]. *)
Record AgentID : Type := mkAgentID { AgentID_Value : option string }.

(** Modelled from the spec: the value of a text attribute; [Value] is a
    [*string]. *)
Record Value_Text : Type := mkValue_Text { Text_Value : option string }.

(** Modelled from the spec: a "typed attribute" of an offer, with the fields
    the statements read. *)
Record Attribute : Type := mkAttribute {
  Attribute_Name : option string;
  Attribute_Type : option Value_Type;
  Attribute_Text : option Value_Text;
}.

(** Modelled from the spec: an offer, with the fields the statements read. *)
Record Offer : Type := mkOffer {
  Hostname : option string;
  AgentId : option AgentID;
  Attributes : list Attribute;
}.

(** Modelled from the spec: the accessors of the generated code, on a
    receiver that may be nil. *)
Definition GetHostname (o : option Offer) : string :=
  default "" (o ≫= Hostname).

Definition GetAgentId (o : option Offer) : option AgentID :=
  o ≫= AgentId.

Definition GetName (a : Attribute) : string :=
  default "" (Attribute_Name a).

Definition GetType (a : Attribute) : Value_Type :=
  default Value_SCALAR (Attribute_Type a).

Definition GetText (a : Attribute) : option Value_Text :=
  Attribute_Text a.

(** Modelled from the spec: the type [Slot] is not part of the sources at
    hand. A slot has the identity (AppID, Index); [HostnamesInUse] is the
    side channel [slot.App.HostnamesInUse()] of section 4.1, the hostnames on
    which the running tasks of the slot's application have been placed. *)
Record Slot : Type := mkSlot {
  Slot_AppID : string;
  Slot_Index : nat;
  HostnamesInUse : list string;
}.

Record ConstraintContextHolder : Type := mkContext {
  ctxSlot : option Slot;
  ctxOffer : option Offer;
}.

(** The context of a statement that [SetContext] has not been called on. *)
Definition noContext : ConstraintContextHolder :=
  {| ctxSlot := None; ctxOffer := None |}.

(** ** Go's package regexp

    The statements compile the pattern with [regexp.MustCompile] and match
    with [MatchString]; the engine itself is a parameter. [Compile] answers
    [None] where Go's [regexp.Compile] answers an error. *)
Class RegexpEngine : Type := {
  Regexp : Type;
  Compile : string → option Regexp;
  MatchString : Regexp → string → bool;
}.

Definition MustCompile {E : RegexpEngine} (str : string) : result Regexp :=
  match Compile str with
  | Some r => Ok r
  | None => Panic ("regexp: Compile(" ++ str ++ "): error")
  end.

(** Modelled from the spec: [utils.SliceContains] is not part of the sources
    at hand; the restriction table of section 4.1 is checked by the membership
    of the attribute in a slice of names. *)
Fixpoint SliceContains (s : list string) (e : string) : bool :=
  match s with
  | [] => false
  | x :: s' => String.eqb x e || SliceContains s' e
  end.

Definition uniqWhat : list string := ["hostname"].

Definition likeWhat : list string := ["hostname"; "agentid"].

(** ** The statements

    The three leaves embed a [ConstraintContextHolder], filled in by
    [SetContext]; [OrStatement] embeds one too, which nothing reads. *)
Inductive Statement : Type :=
  | NotStatement (Op1 : Statement)
  | AndStatement (Op1 Op2 : Statement)
  | OrStatement (Op1 Op2 : Statement)
  | UniqueStatment (ctx : ConstraintContextHolder) (What : string)
  | LikeStatement (ctx : ConstraintContextHolder) (What Regex : string)
  | ContainsStatement (ctx : ConstraintContextHolder) (What Regex : string).

Fixpoint SetContext (ctx : ConstraintContextHolder) (s : Statement)
  : Statement :=
  match s with
  | NotStatement op1 => NotStatement (SetContext ctx op1)
  | AndStatement op1 op2 =>
      AndStatement (SetContext ctx op1) (SetContext ctx op2)
  | OrStatement op1 op2 =>
      OrStatement (SetContext ctx op1) (SetContext ctx op2)
  | UniqueStatment _ what => UniqueStatment ctx what
  | LikeStatement _ what regex => LikeStatement ctx what regex
  | ContainsStatement _ what regex => ContainsStatement ctx what regex
  end.

(** [Valid] answers an error ([Some]) or nil ([None]). *)
Fixpoint Valid (s : Statement) : option string :=
  match s with
  | NotStatement op1 => Valid op1
  | AndStatement op1 op2 | OrStatement op1 op2 =>
      match Valid op1 with
      | Some err => Some err
      | None => Valid op2
      end
  | UniqueStatment _ what =>
      if SliceContains uniqWhat what then None
      else Some "only hostname is supported for the time being"
  | LikeStatement _ what _ =>
      if SliceContains likeWhat what then None
      else Some "only hostname, agentid are supported"
  | ContainsStatement _ what _ =>
      if SliceContains likeWhat what then None
      else Some "only hostname, ip, agentid are supported"
  end.

(** ** Evaluation

    [Eval] is a computation that may panic and that calls the [Eval] of the
    leaves in some order: a run is the list of the leaves evaluated, in the order
    of their evaluation, and its result. *)
Definition Run (A : Type) : Type := (list Statement * result A)%type.

#[global] Instance Run_ret : MRet Run := λ A a, ([], Ok a).

#[global] Instance Run_bind : MBind Run := λ A B f m,
  match m with
  | (t, Ok a) => let '(t', r) := f a in ((t ++ t')%list, r)
  | (t, Panic msg) => (t, Panic msg)
  end.

Definition trace {A} (m : Run A) : list Statement := m.1.

Definition outcome {A} (m : Run A) : result A := m.2.

(** [*ls.Offer.GetAgentId().Value] *)
Definition agentIdValue (o : option Offer) : result string :=
  match GetAgentId o with
  | None => Panic nil_deref
  | Some id =>
      match AgentID_Value id with
      | None => Panic nil_deref
      | Some v => Ok v
      end
  end.

(** The loop over [Offer.Attributes]: the first attribute of the name [what]
    and of the type TEXT decides, [test] being applied to
    [*attr.GetText().Value]. *)
Fixpoint attributesLoop (test : string → bool) (what : string)
    (attrs : list Attribute) : result bool :=
  match attrs with
  | [] => Ok false
  | attr :: attrs' =>
      if String.eqb (GetName attr) what
         && bool_decide (GetType attr = Value_TEXT)
      then
        match GetText attr ≫= Text_Value with
        | Some v => Ok (test v)
        | None => Panic nil_deref
        end
      else attributesLoop test what attrs'
  end.

(** The body shared by [LikeStatement.Eval] and [ContainsStatement.Eval],
    after the pattern was compiled. *)
Definition matchWhat (test : string → bool) (ctx : ConstraintContextHolder)
    (what : string) : result bool :=
  if String.eqb what "hostname" then Ok (test (GetHostname (ctxOffer ctx)))
  else if String.eqb what "agentid" then
    match agentIdValue (ctxOffer ctx) with
    | Ok v => Ok (test v)
    | Panic msg => Panic msg
    end
  else
    match ctxOffer ctx with
    | None => Panic nil_deref
    | Some o => attributesLoop test what (Attributes o)
    end.

Section Eval.

Context {E : RegexpEngine}.

Definition evalLeaf (s : Statement) : result bool :=
  match s with
  | UniqueStatment _ what =>
      (* the branch for "hostname" is empty *)
      if String.eqb what "hostname" then Ok false else Ok false
  | LikeStatement ctx what regex =>
      match MustCompile regex with
      | Panic msg => Panic msg
      | Ok r => matchWhat (MatchString r) ctx what
      end
  | ContainsStatement ctx what regex =>
      matchWhat (fun s => GoStrings.Contains s regex) ctx what
  | _ => Ok false
  end.

Fixpoint Eval (s : Statement) : Run bool :=
  match s with
  | NotStatement op1 => Eval op1 ≫= λ b : bool, mret (negb b)
  | AndStatement op1 op2 =>
      (* as.Op2.Eval() && as.Op1.Eval() *)
      Eval op2 ≫= λ b2 : bool, if b2 then Eval op1 else mret false
  | OrStatement op1 op2 =>
      (* os.Op2.Eval() || os.Op1.Eval() *)
      Eval op2 ≫= λ b2 : bool, if b2 then mret true else Eval op1
  | UniqueStatment _ _ | LikeStatement _ _ _ | ContainsStatement _ _ _ =>
      ([s], evalLeaf s)
  end.

(** The evaluation the specification words: operands from left to right,
    [Op1] first, [Op2] only when [Op1] does not decide. *)
Fixpoint Eval_left_to_right (s : Statement) : Run bool :=
  match s with
  | NotStatement op1 => Eval_left_to_right op1 ≫= λ b : bool, mret (negb b)
  | AndStatement op1 op2 =>
      Eval_left_to_right op1 ≫= λ b1 : bool,
        if b1 then Eval_left_to_right op2 else mret false
  | OrStatement op1 op2 =>
      Eval_left_to_right op1 ≫= λ b1 : bool,
        if b1 then mret true else Eval_left_to_right op2
  | UniqueStatment _ _ | LikeStatement _ _ _ | ContainsStatement _ _ _ =>
      ([s], evalLeaf s)
  end.

End Eval.

(** What the specification asks of [Unique(hostname)]: no running task of the
    application of the slot has been placed on the hostname of the offer. *)
Definition hostnameUnused (ctx : ConstraintContextHolder) : bool :=
  match ctxSlot ctx with
  | None => true
  | Some slot =>
      negb (SliceContains (HostnamesInUse slot) (GetHostname (ctxOffer ctx)))
  end.

(** The leaves of a statement, from left to right. *)
Fixpoint leaves (s : Statement) : list Statement :=
  match s with
  | NotStatement op1 => leaves op1
  | AndStatement op1 op2 | OrStatement op1 op2 => leaves op1 ++ leaves op2
  | _ => [s]
  end.

(** What the evaluation of a leaf needs beyond [Valid]: the pattern of a
    [like] compiles, and the offer of a leaf over [agentid] has an agent
    identifier. *)
Definition leaf_safe {E : RegexpEngine} (l : Statement) : Prop :=
  match l with
  | LikeStatement ctx what regex =>
      is_Some (Compile regex)
      ∧ (what = "agentid" → is_Ok (agentIdValue (ctxOffer ctx)) = true)
  | ContainsStatement ctx what _ =>
      what = "agentid" → is_Ok (agentIdValue (ctxOffer ctx)) = true
  | _ => True
  end.

(** The context a leaf holds; the composite statements hold none that is
    read. *)
Definition leafContext (l : Statement) : option ConstraintContextHolder :=
  match l with
  | UniqueStatment ctx _ | LikeStatement ctx _ _ | ContainsStatement ctx _ _ =>
      Some ctx
  | _ => None
  end.

(** Two statements that differ by the contexts of their leaves at most: the
    same operators, and leaf by leaf the same attribute and the same pattern
    or needle. *)
Fixpoint sameShape (s s' : Statement) : Prop :=
  match s, s' with
  | NotStatement a, NotStatement a' => sameShape a a'
  | AndStatement a b, AndStatement a' b' => sameShape a a' ∧ sameShape b b'
  | OrStatement a b, OrStatement a' b' => sameShape a a' ∧ sameShape b b'
  | UniqueStatment _ what, UniqueStatment _ what' => what = what'
  | LikeStatement _ what regex, LikeStatement _ what' regex' =>
      what = what' ∧ regex = regex'
  | ContainsStatement _ what regex, ContainsStatement _ what' regex' =>
      what = what' ∧ regex = regex'
  | _, _ => False
  end.

End Constraints.

(** * Package janitor: upstream.go *)

Module Janitor.

(** A [*Target] is a location of the store of the targets; nil is a location
    the store holds nothing at. The registry and the sessions share the
    targets through these pointers. *)
Abbreviation loc := nat.

(** A [float64], by its 64 bits: the registry only copies weights. *)
Abbreviation float64 := N.

Module Target.
Record t : Type := mk {
  AppID : string;
  AppAlias : string;
  VersionID : string;
  AppVersion : string;
  TaskID : string;
  TaskIP : string;
  TaskPort : N;
  Weight : float64;
}.
End Target.

Module Sessions.
(** Modelled from the spec: the session store is not part of the sources at
    hand. It is the "mapping remoteIP → (target, lastSeen)" of section 4.6,
    with the mark of its background sweep being stopped. *)
Record t : Type := mk {
  m : gmap string (loc * nat);
  stopped : bool;
}.

Definition newSessions : t := {| m := ∅; stopped := false |}.

(** Modelled from the spec: [get] answers the target bound to an address,
    [update] binds it at the time of the call, [remove] drops the sessions of
    a task ("remove target & session"), [stop] ends the background sweep. *)
Definition get (s : t) (remoteIP : string) : option loc :=
  fst <$> m s !! remoteIP.

Definition update (s : t) (remoteIP : string) (target : loc) (now : nat) : t :=
  {| m := <[remoteIP := (target, now)]> (m s); stopped := stopped s |}.

Definition remove (store : gmap loc Target.t) (s : t) (taskID : string) : t :=
  {| m := filter
            (λ kv : string * (loc * nat),
               Target.TaskID <$> store !! kv.2.1 ≠ Some taskID)
            (m s);
     stopped := stopped s |}.

Definition stop (s : t) : t := {| m := m s; stopped := true |}.
End Sessions.

(** Modelled from the spec: the interface [Balancer] is not part of the
    sources at hand; its contract is "Next(targets) → target | nil". The
    choice of an implementation may be random; a balancer is here one
    resolution of its choices, which may read the targets. *)
Record Balancer : Type := mkBalancer {
  Next : gmap loc Target.t → list loc → option loc;
}.

Module Upstream.
Record t : Type := mk {
  AppID : string;
  AppAlias : string;
  Targets : list loc;
  sessions : Sessions.t;
  balancer : Balancer;
}.
End Upstream.

(** The registry, with the store its pointers point into. The mutex is left
    out: the calls are taken one at a time. *)
Record Upstreams : Type := mkUpstreams {
  store : gmap loc Target.t;
  upstreams : list Upstream.t;
}.

Definition setUpstreams (us : Upstreams) (l : list Upstream.t) : Upstreams :=
  {| store := store us; upstreams := l |}.

Definition setTargets (u : Upstream.t) (l : list loc) : Upstream.t :=
  {| Upstream.AppID := Upstream.AppID u;
     Upstream.AppAlias := Upstream.AppAlias u;
     Upstream.Targets := l;
     Upstream.sessions := Upstream.sessions u;
     Upstream.balancer := Upstream.balancer u |}.

Definition setSessions (u : Upstream.t) (s : Sessions.t) : Upstream.t :=
  {| Upstream.AppID := Upstream.AppID u;
     Upstream.AppAlias := Upstream.AppAlias u;
     Upstream.Targets := Upstream.Targets u;
     Upstream.sessions := s;
     Upstream.balancer := Upstream.balancer u |}.

(** The three searches answer the first match with its index, or [None] where
    the source answers [(-1, nil)]. *)
Definition getUpstreamByID (us : Upstreams) (appID : string)
  : option (nat * Upstream.t) :=
  list_find (λ v, Upstream.AppID v = appID) (upstreams us).

Definition getUpstreamByAlias (us : Upstreams) (alias : string)
  : option (nat * Upstream.t) :=
  list_find (λ v, Upstream.AppAlias v = alias) (upstreams us).

Definition Upstream_getTarget (store : gmap loc Target.t) (u : Upstream.t)
    (taskID : string) : option (nat * loc) :=
  list_find (λ v, Target.TaskID <$> store !! v = Some taskID)
    (Upstream.Targets u).

(** The five fields an update copies. *)
Definition updateTarget (target t : Target.t) : Target.t :=
  {| Target.AppID := Target.AppID t;
     Target.AppAlias := Target.AppAlias t;
     Target.VersionID := Target.VersionID target;
     Target.AppVersion := Target.AppVersion target;
     Target.TaskID := Target.TaskID t;
     Target.TaskIP := Target.TaskIP target;
     Target.TaskPort := Target.TaskPort target;
     Target.Weight := Target.Weight target |}.

Definition valid (t : option Target.t) : option string :=
  match t with
  | None => Some "nil targte"
  | Some t =>
      if String.eqb (Target.AppID t) "" || String.eqb (Target.TaskID t) ""
      then Some "app_id or task_id required"
      else if String.eqb (Target.TaskIP t) "" || (Target.TaskPort t =? 0)%N
      then Some "task_ip or task_port required"
      else if negb (GoStrings.HasSuffix (Target.TaskID t)
                      ("-" ++ Target.AppID t))
      then Some "invalid task_id, must be suffixed by app_id"
      else None
  end.

Section Registry.

(** [WeightBalancer], the balancer of a new upstream. *)
Variable WeightBalancer : Balancer.

Definition newUpstream (appID appAlias : string) : Upstream.t :=
  {| Upstream.AppID := appID;
     Upstream.AppAlias := appAlias;
     Upstream.Targets := [];
     Upstream.sessions := Sessions.newSessions;
     Upstream.balancer := WeightBalancer |}.

(** [upsertTarget] answers its error (nil is [None]) and the registry it
    leaves. *)
Definition upsertTarget (us : Upstreams) (target : loc)
  : result (option string) * Upstreams :=
  match store us !! target with
  | None => (Panic nil_deref, us)
  | Some tg =>
      let appID := Target.AppID tg in
      let appAlias := Target.AppAlias tg in
      let taskID := Target.TaskID tg in
      match getUpstreamByID us appID with
      | None =>
          (* add new upstream *)
          match getUpstreamByAlias us appAlias with
          | Some _ => (Ok (Some ("alias [" ++ appAlias ++ "] conflict")), us)
          | None =>
              let u := setTargets (newUpstream appID appAlias) [target] in
              (Ok None, setUpstreams us (upstreams us ++ [u]))
          end
      | Some (i, u) =>
          match Upstream_getTarget (store us) u taskID with
          | None =>
              (* add new target *)
              let u' := setTargets u (Upstream.Targets u ++ [target]) in
              (Ok None, setUpstreams us (<[i := u']> (upstreams us)))
          | Some (_, t) =>
              (* update target *)
              (Ok None,
               {| store := alter (updateTarget tg) t (store us);
                  upstreams := upstreams us |})
          end
      end
  end.

Definition getTarget (us : Upstreams) (appID taskID : string) : option loc :=
  match getUpstreamByID us appID with
  | None => None
  | Some (_, u) => snd <$> Upstream_getTarget (store us) u taskID
  end.

Definition removeTarget (us : Upstreams) (target : loc)
  : result unit * Upstreams :=
  match store us !! target with
  | None => (Panic nil_deref, us)
  | Some tg =>
      let appID := Target.AppID tg in
      let taskID := Target.TaskID tg in
      match getUpstreamByID us appID with
      | None => (Ok (), us)
      | Some (idxu, u) =>
          match Upstream_getTarget (store us) u taskID with
          | None => (Ok (), us)
          | Some (idxt, _) =>
              (* remove target & session *)
              let u' :=
                setSessions
                  (setTargets u (delete idxt (Upstream.Targets u)))
                  (Sessions.remove (store us) (Upstream.sessions u) taskID) in
              (* remove empty upstream & stop sessions gc *)
              if (length (Upstream.Targets u') =? 0)%nat
              then (Ok (), setUpstreams us (delete idxu (upstreams us)))
              else (Ok (), setUpstreams us (<[idxu := u']> (upstreams us)))
          end
      end
  end.

Definition nextTarget (us : Upstreams) (appID : string) : option loc :=
  match getUpstreamByID us appID with
  | None => None
  | Some (_, u) =>
      Next (Upstream.balancer u) (store us) (Upstream.Targets u)
  end.

(** [lookup], with the time [now] its deferred [sessions.update] reads. The
    deferred call runs on every return after the upstream was found, with the
    [t] the return assigned. *)
Definition lookup (us : Upstreams) (remoteIP appID taskID : string)
    (now : nat) : option loc * Upstreams :=
  match getUpstreamByID us appID with
  | None => (None, us)
  | Some (i, u) =>
      let t :=
        match Sessions.get (Upstream.sessions u) remoteIP with
        | Some t => Some t                      (* obtain session *)
        | None =>
            if negb (String.eqb taskID "")
            then getTarget us appID taskID      (* specified task backend *)
            else nextTarget us appID            (* balancer *)
        end in
      match t with
      | None => (None, us)
      | Some t' =>
          let u' :=
            setSessions u
              (Sessions.update (Upstream.sessions u) remoteIP t' now) in
          (Some t', setUpstreams us (<[i := u']> (upstreams us)))
      end
  end.

Definition lookupAlias (us : Upstreams) (remoteIP appAlias : string)
    (now : nat) : option loc * Upstreams :=
  match getUpstreamByAlias us appAlias with
  | None => (None, us)
  | Some (_, u) => lookup us remoteIP (Upstream.AppID u) "" now
  end.

End Registry.

(** [u], at the index [i], is the first upstream of the application. *)
Definition first_upstream (us : Upstreams) (appID : string) (i : nat)
    (u : Upstream.t) : Prop :=
  upstreams us !! i = Some u
  ∧ Upstream.AppID u = appID
  ∧ ∀ j v, upstreams us !! j = Some v → j < i → Upstream.AppID v ≠ appID.

(** [t], at the index [k], is the first target of [u] of the task. *)
Definition first_target (store : gmap nat Target.t) (u : Upstream.t)
    (taskID : string) (k : nat) (t : nat) : Prop :=
  Upstream.Targets u !! k = Some t
  ∧ Target.TaskID <$> store !! t = Some taskID
  ∧ ∀ k' t', Upstream.Targets u !! k' = Some t' → k' < k →
      Target.TaskID <$> store !! t' ≠ Some taskID.

(** Every session of an upstream points to one of the targets of that
    upstream. *)
Definition sessions_live (us : Upstreams) : Prop :=
  ∀ u remoteIP t,
    u ∈ upstreams us →
    Sessions.get (Upstream.sessions u) remoteIP = Some t →
    t ∈ Upstream.Targets u.

(** A balancer answers one of the targets it is given, or nil. *)
Definition balancer_sound (b : Balancer) : Prop :=
  ∀ store targets t, Next b store targets = Some t → t ∈ targets.

(** The invariant of the registry: the sessions are live, and every upstream
    has the balancer [newUpstream] gave it. *)
Definition registry_inv (WeightBalancer : Balancer) (us : Upstreams) : Prop :=
  sessions_live us
  ∧ ∀ u, u ∈ upstreams us → Upstream.balancer u = WeightBalancer.

(** The registries the calls of this file lead to from the empty one; the
    targets themselves belong to the callers, who allocate and write them. *)
Inductive reachable (WeightBalancer : Balancer) : Upstreams → Prop :=
  | reach_empty store :
      reachable WeightBalancer {| store := store; upstreams := [] |}
  | reach_store us store' :
      reachable WeightBalancer us →
      reachable WeightBalancer {| store := store'; upstreams := upstreams us |}
  | reach_upsertTarget us target :
      reachable WeightBalancer us →
      reachable WeightBalancer (upsertTarget WeightBalancer us target).2
  | reach_removeTarget us target :
      reachable WeightBalancer us →
      reachable WeightBalancer (removeTarget us target).2
  | reach_lookup us remoteIP appID taskID now :
      reachable WeightBalancer us →
      reachable WeightBalancer (lookup us remoteIP appID taskID now).2
  | reach_lookupAlias us remoteIP appAlias now :
      reachable WeightBalancer us →
      reachable WeightBalancer (lookupAlias us remoteIP appAlias now).2.

Definition allUps (us : Upstreams) : list Upstream.t := upstreams us.

(** [allSess]: the map is filled in the order of the upstreams, a later
    upstream overwriting an earlier one of the same application. *)
Definition allSess (us : Upstreams) : gmap string Sessions.t :=
  foldl (λ ret u, <[Upstream.AppID u := Upstream.sessions u]> ret) ∅
    (upstreams us).

(** The shape of the registry: no two upstreams of one application or of one
    alias, no upstream without a target, no pointer twice among the targets
    of an upstream. *)
Definition registry_wf (us : Upstreams) : Prop :=
  NoDup (Upstream.AppID <$> upstreams us)
  ∧ NoDup (Upstream.AppAlias <$> upstreams us)
  ∧ ∀ u, u ∈ upstreams us →
      Upstream.Targets u ≠ [] ∧ NoDup (Upstream.Targets u).

End Janitor.

(** * Inputs of the examples *)

Module Examples.

Import Constraints.

(** A regexp engine for the patterns without metacharacters: Go's engine
    compiles them and matches them where they occur as a substring. Any other
    pattern is refused, as Go refuses the unbalanced ["("]. *)
Definition isMeta (c : Ascii.ascii) : bool :=
  GoStrings.Contains "\.+*?()|[]{}^$" (String c EmptyString).

Fixpoint literal (s : string) : bool :=
  match s with
  | EmptyString => true
  | String c s' => negb (isMeta c) && literal s'
  end.

Definition literalRegexp : RegexpEngine := {|
  Regexp := string;
  Compile := λ str, if literal str then Some str else None;
  MatchString := λ r s, GoStrings.Contains s r;
|}.

(** An offer of the host [h1], with a text attribute [rack]. *)
Definition offer_h1 : Offer :=
  {| Hostname := Some "h1";
     AgentId := Some {| AgentID_Value := Some "agent-1" |};
     Attributes :=
       [ {| Attribute_Name := Some "rack";
            Attribute_Type := Some Value_TEXT;
            Attribute_Text := Some {| Text_Value := Some "r1" |} |} ] |}.

(** Slot 0 of an application none of whose tasks runs yet. *)
Definition slot_fresh : Slot :=
  {| Slot_AppID := "web"; Slot_Index := 0; HostnamesInUse := [] |}.

Definition ctx_h1 : ConstraintContextHolder :=
  {| ctxSlot := Some slot_fresh; ctxOffer := Some offer_h1 |}.

(** An offer the agent of which is not set. *)
Definition offer_anonymous : Offer :=
  {| Hostname := Some "h1"; AgentId := None; Attributes := [] |}.

Definition ctx_anonymous : ConstraintContextHolder :=
  {| ctxSlot := Some slot_fresh; ctxOffer := Some offer_anonymous |}.

Definition hostname_is_zzz : Statement := ContainsStatement ctx_h1 "hostname" "zzz".

Definition hostname_has_h : Statement := ContainsStatement ctx_h1 "hostname" "h".

(** An offer with two attributes of the name [rack]: a scalar one, then a
    text one of the value [r7]. *)
Definition offer_two_racks : Offer :=
  {| Hostname := Some "h2";
     AgentId := Some {| AgentID_Value := Some "agent-2" |};
     Attributes :=
       [ {| Attribute_Name := Some "rack";
            Attribute_Type := Some Value_SCALAR;
            Attribute_Text := None |};
         {| Attribute_Name := Some "rack";
            Attribute_Type := Some Value_TEXT;
            Attribute_Text := Some {| Text_Value := Some "r7" |} |} ] |}.

Definition ctx_two_racks : ConstraintContextHolder :=
  {| ctxSlot := Some slot_fresh; ctxOffer := Some offer_two_racks |}.

(** [(and (like hostname h) (not (contains agentid agent)))] on the offer of
    [h1]. *)
Definition like_and_not_contains : Statement :=
  AndStatement (LikeStatement ctx_h1 "hostname" "h")
    (NotStatement (ContainsStatement ctx_h1 "agentid" "agent")).

(** A machine in the state [normal], the mutex free, no hook called yet. *)
Definition machine_normal : StateMachine.StateMachine :=
  {| StateMachine.state := Some StateMachine.StateNormal;
     StateMachine.lock := false;
     StateMachine.hooks := [] |}.

(** ** Inputs for the registry *)

Import Janitor.

(** The balancer that answers the first target. *)
Definition firstBalancer : Balancer := {| Next := λ _ targets, head targets |}.

Definition target_A : Target.t :=
  Target.mk "A" "foo" "v1" "1" "0-A" "10.0.0.1" 80 1.

Definition target_B : Target.t :=
  Target.mk "B" "foo" "v1" "1" "0-B" "10.0.0.2" 80 1.

(** A second version of the task of [target_A]. *)
Definition target_A' : Target.t :=
  Target.mk "A" "foo" "v2" "2" "0-A" "10.0.0.9" 81 3.

(** A target the task of which is not named after its application. *)
Definition target_x : Target.t :=
  Target.mk "a" "x" "v1" "1" "x" "10.0.0.3" 80 1.

Definition store0 : gmap nat Target.t :=
  <[0 := target_A]> (<[1 := target_B]> (<[2 := target_A']> (<[3 := target_x]> ∅))).

Definition registry_empty : Upstreams := {| store := store0; upstreams := [] |}.

Definition upstream_A (s : Sessions.t) : Upstream.t :=
  {| Upstream.AppID := "A"; Upstream.AppAlias := "foo";
     Upstream.Targets := [0];
     Upstream.sessions := s;
     Upstream.balancer := firstBalancer |}.

(** A second task of the application [A]. *)
Definition target_A1 : Target.t :=
  Target.mk "A" "foo" "v1" "1" "1-A" "10.0.0.4" 80 3.

Definition store1 : gmap nat Target.t := <[4 := target_A1]> store0.

(** The upstream of [A] with its two tasks, the address [1.2.3.4] bound to
    the first one. *)
Definition upstream_A2 : Upstream.t :=
  {| Upstream.AppID := "A"; Upstream.AppAlias := "foo";
     Upstream.Targets := [0; 4];
     Upstream.sessions :=
       Sessions.update Sessions.newSessions "1.2.3.4" 0 5;
     Upstream.balancer := firstBalancer |}.

Definition registry_A2 : Upstreams :=
  {| store := store1; upstreams := [upstream_A2] |}.



(** The registry after [target_A] was inserted. *)
Definition registry_A : Upstreams :=
  {| store := store0; upstreams := [upstream_A Sessions.newSessions] |}.

End Examples.

(** * Properties of the application state machine *)

Module StateMachineFacts.

Import StateMachine.

Lemma StateFactory_Name stateName s :
  StateFactory stateName = Ok s → Name s = stateName.
Proof.
  unfold StateFactory.
  repeat match goal with
    | |- context [String.eqb ?a ?b] =>
        destruct (String.eqb_spec a b) as [->|_]; [by intros [= <-]|]
    end.
  done.
Qed.

Lemma StateFactory_updating : StateFactory APP_STATE_UPDATING = Panic "unrecognized state".
Proof. reflexivity. Qed.

Lemma StateFactory_cancel_update :
  StateFactory APP_STATE_CANCEL_UPDATE = Panic "unrecognized state".
Proof. reflexivity. Qed.

(** A transition the state refuses is answered by an error, and nothing of
    the machine changes. *)
Lemma TransitTo_refused can machine s target :
  state machine = Some s →
  can s target = false →
  ∃ err, TransitTo can machine target = Returned (Some err) machine.
Proof. intros Hs Hcan. unfold TransitTo. rewrite Hs, Hcan. eauto. Qed.

(** A transition the state permits, to a state [StateFactory] builds, leaves
    the old state, enters the new one and answers nil. *)
Lemma TransitTo_permitted can s h target s' :
  can s target = true →
  StateFactory target = Ok s' →
  TransitTo can {| state := Some s; lock := false; hooks := h |} target
  = Returned None
      {| state := Some s'; lock := false;
         hooks := (h ++ [OnExit s]) ++ [OnEnter s'] |}.
Proof. intros Hcan Hf. unfold TransitTo. simpl. by rewrite Hcan, Hf. Qed.

(** A permitted transition to a name [StateFactory] has no case for panics
    after [OnExit] ran, with the mutex held and the state as it was. *)
Lemma TransitTo_permitted_unrecognized can s h target msg :
  can s target = true →
  StateFactory target = Panic msg →
  TransitTo can {| state := Some s; lock := false; hooks := h |} target
  = Panicked msg {| state := Some s; lock := true; hooks := h ++ [OnExit s] |}.
Proof. intros Hcan Hf. unfold TransitTo. simpl. by rewrite Hcan, Hf. Qed.

(** With the table of section 4.4 for [CanTransitTo]: the two transitions the
    table marks legal and the specification names end in a panic. *)
Lemma TransitTo_table_updating_panics :
  CanTransitTo_table StateNormal APP_STATE_UPDATING = true
  ∧ TransitTo CanTransitTo_table
      {| state := Some StateNormal; lock := false; hooks := [] |}
      APP_STATE_UPDATING
    = Panicked "unrecognized state"
        {| state := Some StateNormal; lock := true;
           hooks := [OnExit StateNormal] |}
  ∧ CanTransitTo_table StateUpdating APP_STATE_CANCEL_UPDATE = true
  ∧ TransitTo CanTransitTo_table
      {| state := Some StateUpdating; lock := false; hooks := [] |}
      APP_STATE_CANCEL_UPDATE
    = Panicked "unrecognized state"
        {| state := Some StateUpdating; lock := true;
           hooks := [OnExit StateUpdating] |}.
Proof. repeat split. Qed.

(** With the table of section 4.4: a legal transition to any of the five
    states [StateFactory] builds installs that state and answers nil. *)
Lemma TransitTo_table_legal_built s h (target : string) :
  CanTransitTo_table s target = true →
  target ≠ APP_STATE_UPDATING →
  target ≠ APP_STATE_CANCEL_UPDATE →
  ∃ s', Name s' = target
        ∧ TransitTo CanTransitTo_table
            {| state := Some s; lock := false; hooks := h |} target
          = Returned None
              {| state := Some s'; lock := false;
                 hooks := (h ++ [OnExit s]) ++ [OnEnter s'] |}.
Proof.
  intros Hcan Hu Hc.
  assert (is_Ok (StateFactory target) = true) as Hbuilt.
  { destruct s; simpl in Hcan; try discriminate Hcan;
      repeat match type of Hcan with
        | (_ || _) = true => apply orb_true_iff in Hcan as [Hcan|Hcan]
        | String.eqb _ _ = true => apply String.eqb_eq in Hcan; subst target
        end;
      first [reflexivity | by destruct Hu | by destruct Hc]. }
  destruct (StateFactory target) as [s'|] eqn:Hs'; [|discriminate Hbuilt].
  exists s'. split; [by apply StateFactory_Name|].
  by apply TransitTo_permitted.
Qed.

(** C1. The specification asks that [TransitTo] installs the target and answers nil
    for every pair the table marks legal, [normal] to [updating] and
    [updating] to [cancel_update] among them. On the code no call of
    [TransitTo] towards ["updating"] or ["cancel_update"] ever answers nil,
    whatever the machine and whatever [CanTransitTo] of its state says:
    [StateFactory] has no case for the two names. *)
Theorem TransitTo_updating_never_installed
    (can : State → string → bool) (machine machine' : StateMachine) :
  TransitTo can machine APP_STATE_UPDATING ≠ Returned None machine'
  ∧ TransitTo can machine APP_STATE_CANCEL_UPDATE ≠ Returned None machine'.
Proof.
  unfold TransitTo.
  split; destruct (state machine) as [s|]; try done;
    destruct (can s _); try done; by destruct (lock machine).
Qed.

(** A call that answers an error was refused, and left the machine as it
    was. *)
Lemma TransitTo_refused_inv can machine target err machine' :
  TransitTo can machine target = Returned (Some err) machine' →
  machine' = machine ∧ ∃ s, state machine = Some s ∧ can s target = false.
Proof.
  unfold TransitTo. destruct (state machine) as [s|] eqn:Hs; [|done].
  destruct (can s target) eqn:Hcan.
  - destruct (lock machine); [done|]. by destruct (StateFactory target).
  - intros [= _ <-]. eauto.
Qed.

End StateMachineFacts.

(** * Properties of the constraint statements *)

Module ConstraintsFacts.

Import Constraints Examples.

(** ** The run monad *)

Lemma bind_Ok {A B} (t : list Statement) (a : A) (f : A → Run B) :
  (t, Ok a) ≫= f = ((t ++ trace (f a))%list, outcome (f a)).
Proof. unfold mbind, Run_bind, trace, outcome. by destruct (f a). Qed.

Lemma bind_Panic {A B} (t : list Statement) msg (f : A → Run B) :
  (t, Panic msg) ≫= f = (t, Panic msg).
Proof. reflexivity. Qed.

Lemma run_eta {A} (m : Run A) : m = (trace m, outcome m).
Proof. by destruct m. Qed.

(** ** Validation *)

Lemma SliceContains_elem_of (s : list string) (e : string) :
  SliceContains s e = true ↔ e ∈ s.
Proof.
  induction s as [|x s IH]; simpl.
  - split; [done | by intros ?%elem_of_nil].
  - rewrite orb_true_iff, IH, String.eqb_eq, elem_of_cons.
    split; (intros [?|?]; [left | right]); congruence.
Qed.

Lemma likeWhat_spec (what : string) :
  SliceContains likeWhat what = true ↔ what = "hostname" ∨ what = "agentid".
Proof.
  rewrite SliceContains_elem_of. unfold likeWhat.
  rewrite !elem_of_cons, elem_of_nil. tauto.
Qed.

(** What [Valid] of a [like] or a [contains] decides: the attribute is one of
    the two names of [likeWhat]. *)
Lemma Valid_Like_Contains_iff ctx (what regex : string) :
  (Valid (LikeStatement ctx what regex) = None
     ↔ what = "hostname" ∨ what = "agentid")
  ∧ (Valid (ContainsStatement ctx what regex) = None
     ↔ what = "hostname" ∨ what = "agentid").
Proof.
  split; cbn [Valid]; rewrite <- likeWhat_spec;
    destruct (SliceContains likeWhat what); split; intros; congruence.
Qed.

Lemma Valid_Unique_iff ctx (what : string) :
  Valid (UniqueStatment ctx what) = None ↔ what = "hostname".
Proof.
  cbn [Valid uniqWhat SliceContains]. rewrite orb_false_r.
  destruct (String.eqb_spec "hostname" what) as [<-|Hne];
    split; intros; congruence.
Qed.

(** ** C5 *)

(** C5. The specification asks that [Valid] accepts a [like] or a [contains] over a
    user-defined text attribute. The offer [offer_h1] has the text attribute
    [rack] of value [r1], and [Eval] of the two statements over [rack] finds
    it; [Valid] refuses both statements. *)
Theorem Valid_refuses_user_attribute :
  Valid (LikeStatement ctx_h1 "rack" "r1")
    = Some "only hostname, agentid are supported"
  ∧ Valid (ContainsStatement ctx_h1 "rack" "r1")
    = Some "only hostname, ip, agentid are supported"
  ∧ outcome (Eval (E:=literalRegexp) (LikeStatement ctx_h1 "rack" "r1"))
    = Ok true
  ∧ outcome (Eval (E:=literalRegexp) (ContainsStatement ctx_h1 "rack" "r1"))
    = Ok true.
Proof. repeat split. Qed.

(** ** C2 *)

(** [Eval] of a [unique] answers false, whatever the context and the
    attribute. *)
Lemma UniqueStatment_Eval {E : RegexpEngine} ctx (what : string) :
  Eval (UniqueStatment ctx what) = ([UniqueStatment ctx what], Ok false).
Proof. simpl. by destruct (String.eqb what "hostname"). Qed.

(** C2. The specification asks that [Unique(hostname)] is true exactly when no running
    task of the application is on the host of the offer. For the first slot
    of an application without a running task and the offer of [h1], the
    hostname is unused and the statement is valid, and [Eval] answers false, under
    every regexp engine. *)
Theorem UniqueStatment_Eval_unused_hostname :
  hostnameUnused ctx_h1 = true
  ∧ Valid (UniqueStatment ctx_h1 "hostname") = None
  ∧ ∀ E : RegexpEngine,
      outcome
        (Eval (E:=E) (SetContext ctx_h1 (UniqueStatment noContext "hostname")))
      = Ok false.
Proof. repeat split. Qed.

(** ** C3 *)

Section EvalFacts.

Context {E : RegexpEngine}.

Lemma Eval_Not (op1 : Statement) :
  Eval (NotStatement op1)
  = (trace (Eval op1),
     match outcome (Eval op1) with
     | Ok b => Ok (negb b)
     | Panic msg => Panic msg
     end).
Proof.
  simpl. destruct (Eval op1) as [t [b|msg]]; [|done].
  rewrite bind_Ok. simpl. by rewrite app_nil_r.
Qed.

Lemma Eval_And (op1 op2 : Statement) :
  Eval (AndStatement op1 op2)
  = match outcome (Eval op2) with
    | Ok true => ((trace (Eval op2) ++ trace (Eval op1))%list, outcome (Eval op1))
    | Ok false => (trace (Eval op2), Ok false)
    | Panic msg => (trace (Eval op2), Panic msg)
    end.
Proof.
  simpl. destruct (Eval op2) as [t [[|]|msg]]; [| |done]; rewrite bind_Ok.
  - done.
  - simpl. by rewrite app_nil_r.
Qed.

Lemma Eval_Or (op1 op2 : Statement) :
  Eval (OrStatement op1 op2)
  = match outcome (Eval op2) with
    | Ok false => ((trace (Eval op2) ++ trace (Eval op1))%list, outcome (Eval op1))
    | Ok true => (trace (Eval op2), Ok true)
    | Panic msg => (trace (Eval op2), Panic msg)
    end.
Proof.
  simpl. destruct (Eval op2) as [t [[|]|msg]]; [| |done]; rewrite bind_Ok.
  - simpl. by rewrite app_nil_r.
  - done.
Qed.

(** Where no leaf panics, the result is the one of the evaluation from left
    to right; the leaves evaluated differ. *)
Lemma Eval_outcome_left_to_right (s : Statement) :
  (∀ l, l ∈ leaves s → is_Ok (evalLeaf l) = true) →
  ∃ b, outcome (Eval s) = Ok b ∧ outcome (Eval_left_to_right s) = Ok b.
Proof.
  induction s as [a IHa|a IHa b IHb|a IHa b IHb|ctx what|ctx what re|ctx what re];
    intros Hl.
  - destruct (IHa Hl) as (x & Hx & Hx').
    exists (negb x). rewrite Eval_Not, Hx. split; [done|].
    simpl. rewrite (run_eta (Eval_left_to_right a)), Hx'. by rewrite bind_Ok.
  - destruct IHa as (x & Hx & Hx');
      [intros l Hin; apply Hl; simpl; set_solver|].
    destruct IHb as (y & Hy & Hy');
      [intros l Hin; apply Hl; simpl; set_solver|].
    exists (x && y). rewrite Eval_And, Hy. split.
    + destruct y; simpl; [by rewrite Hx, andb_true_r | by rewrite andb_false_r].
    + simpl. rewrite (run_eta (Eval_left_to_right a)), Hx', bind_Ok.
      destruct x; simpl; [done|]. done.
  - destruct IHa as (x & Hx & Hx');
      [intros l Hin; apply Hl; simpl; set_solver|].
    destruct IHb as (y & Hy & Hy');
      [intros l Hin; apply Hl; simpl; set_solver|].
    exists (x || y). rewrite Eval_Or, Hy. split.
    + destruct y; simpl; [by rewrite orb_true_r | by rewrite Hx, orb_false_r].
    + simpl. rewrite (run_eta (Eval_left_to_right a)), Hx', bind_Ok.
      destruct x; simpl; [done|]. done.
  - exists false. simpl. by destruct (String.eqb what "hostname").
  - specialize (Hl (LikeStatement ctx what re)).
    destruct (evalLeaf (LikeStatement ctx what re)) as [b|] eqn:Heq.
    + exists b. by rewrite <- Heq.
    + discriminate Hl. simpl. set_solver.
  - specialize (Hl (ContainsStatement ctx what re)).
    destruct (evalLeaf (ContainsStatement ctx what re)) as [b|] eqn:Heq.
    + exists b. by rewrite <- Heq.
    + discriminate Hl. simpl. set_solver.
Qed.

(** C3, as the code has it. [And] and [Or] evaluate their operands from
    right to left with short-circuit: [Op2] is evaluated first, and [Op1] only
    when the result of [Op2] does not decide (true for [And], false for
    [Or]); a panic of an operand that is evaluated is the panic of the whole.
    Where both operands have a result, the result of the whole is their
    conjunction, their disjunction; [Not] negates. *)
Theorem Eval_right_to_left (op1 op2 : Statement) (x y : bool) :
  outcome (Eval op1) = Ok x →
  outcome (Eval op2) = Ok y →
  Eval (AndStatement op1 op2)
    = ((trace (Eval op2) ++ (if y then trace (Eval op1) else []))%list,
       Ok (x && y))
  ∧ Eval (OrStatement op1 op2)
    = ((trace (Eval op2) ++ (if y then [] else trace (Eval op1)))%list,
       Ok (x || y))
  ∧ Eval (NotStatement op1) = (trace (Eval op1), Ok (negb x))
  ∧ (∀ op msg, outcome (Eval op) = Panic msg →
       Eval (AndStatement op op2)
         = (if y then ((trace (Eval op2) ++ trace (Eval op))%list, Panic msg)
            else (trace (Eval op2), Ok false))
       ∧ Eval (OrStatement op op2)
         = (if y then (trace (Eval op2), Ok true)
            else ((trace (Eval op2) ++ trace (Eval op))%list, Panic msg))
       ∧ Eval (AndStatement op1 op) = (trace (Eval op), Panic msg)
       ∧ Eval (OrStatement op1 op) = (trace (Eval op), Panic msg)).
Proof.
  intros Hx Hy. rewrite Eval_And, Eval_Or, Eval_Not, Hx, Hy.
  split; [|split; [|split]].
  - destruct y; [by rewrite andb_true_r | by rewrite andb_false_r, app_nil_r].
  - destruct y; [by rewrite orb_true_r, app_nil_r | by rewrite orb_false_r].
  - done.
  - intros op msg Hop. rewrite !Eval_And, !Eval_Or, Hy, Hop. by destruct y.
Qed.

End EvalFacts.

(** C3, the specification against the code: with [Op1] false and [Op2] true on the
    offer of [h1], [And(Op1, Op2)] evaluates [Op2], then [Op1]; from left to
    right [Op1] alone is evaluated. The two runs differ. *)
Lemma Eval_And_not_left_to_right :
  let Op1 := hostname_is_zzz in
  let Op2 := hostname_has_h in
  outcome (Eval (E:=literalRegexp) Op1) = Ok false
  ∧ Eval (E:=literalRegexp) (AndStatement Op1 Op2) = ([Op2; Op1], Ok false)
  ∧ Eval_left_to_right (E:=literalRegexp) (AndStatement Op1 Op2)
    = ([Op1], Ok false)
  ∧ Eval (E:=literalRegexp) (AndStatement Op1 Op2)
    ≠ Eval_left_to_right (E:=literalRegexp) (AndStatement Op1 Op2).
Proof. repeat split. vm_compute. discriminate. Qed.

Lemma Eval_right_to_left_witness :
  Eval (E:=literalRegexp) (AndStatement hostname_is_zzz hostname_has_h)
    = ([hostname_has_h; hostname_is_zzz], Ok false)
  ∧ Eval (E:=literalRegexp) (OrStatement hostname_is_zzz hostname_has_h)
    = ([hostname_has_h], Ok true).
Proof.
  destruct (Eval_right_to_left (E:=literalRegexp)
              hostname_is_zzz hostname_has_h false true)
    as (Hand & Hor & _); [reflexivity | reflexivity |].
  split; [exact Hand | exact Hor].
Defined.

(** ** C4 *)

Lemma Valid_leaves (s l : Statement) :
  Valid s = None → l ∈ leaves s → Valid l = None.
Proof.
  induction s as [a IHa|a IHa b IHb|a IHa b IHb|ctx what|ctx what re|ctx what re];
    cbn [Valid leaves]; intros Hv Hl.
  - auto.
  - destruct (Valid a); [done|]. apply elem_of_app in Hl as [?|?]; auto.
  - destruct (Valid a); [done|]. apply elem_of_app in Hl as [?|?]; auto.
  - apply list_elem_of_singleton in Hl as ->. done.
  - apply list_elem_of_singleton in Hl as ->. done.
  - apply list_elem_of_singleton in Hl as ->. done.
Qed.

Lemma matchWhat_valid test ctx (what : string) :
  SliceContains likeWhat what = true →
  (what = "agentid" → is_Ok (agentIdValue (ctxOffer ctx)) = true) →
  is_Ok (matchWhat test ctx what) = true.
Proof.
  intros [->| ->]%likeWhat_spec Hagent; unfold matchWhat; simpl; [done|].
  specialize (Hagent eq_refl). by destruct (agentIdValue (ctxOffer ctx)).
Qed.

Lemma evalLeaf_safe {E : RegexpEngine} (l : Statement) :
  Valid l = None → leaf_safe l → is_Ok (evalLeaf l) = true.
Proof.
  destruct l as [a|a b|a b|ctx what|ctx what re|ctx what re];
    cbn [Valid evalLeaf leaf_safe]; try done.
  - intros _ _. by destruct (String.eqb what "hostname").
  - destruct (SliceContains likeWhat what) eqn:Hw; [|done].
    intros _ [[r Hr] Hagent]. unfold MustCompile. rewrite Hr.
    by apply matchWhat_valid.
  - destruct (SliceContains likeWhat what) eqn:Hw; [|done].
    intros _ Hagent. by apply matchWhat_valid.
Qed.

(** X23. Where [Eval] of a valid statement is safe: every pattern compiles
    and every offer read for its agent identifier has one; the evaluation
    then has a result. *)
Lemma Eval_valid_safe {E : RegexpEngine} (s : Statement) :
  Valid s = None →
  (∀ l, l ∈ leaves s → leaf_safe l) →
  ∃ b, outcome (Eval s) = Ok b.
Proof.
  intros Hv Hsafe.
  destruct (Eval_outcome_left_to_right s) as (b & Hb & _); [|by exists b].
  intros l Hl. apply evalLeaf_safe; [by eapply Valid_leaves | by apply Hsafe].
Qed.

(** C4. The specification asks that [Eval] of a statement [Valid] accepts never
    fails. [Valid] does not look at the pattern of a [like]: where the
    pattern does not compile, the statement is valid and [Eval] panics in
    [regexp.MustCompile], whatever the context. *)
Theorem LikeStatement_Eval_panics_on_invalid_regex
    {E : RegexpEngine} ctx (regex : string) :
  Compile regex = None →
  Valid (LikeStatement ctx "hostname" regex) = None
  ∧ ∃ msg, Eval (LikeStatement ctx "hostname" regex)
           = ([LikeStatement ctx "hostname" regex], Panic msg).
Proof.
  intros Hc. split; [done|].
  simpl. unfold MustCompile. rewrite Hc. eauto.
Qed.

Lemma LikeStatement_Eval_panics_on_invalid_regex_witness :
  Valid (LikeStatement ctx_h1 "hostname" "(") = None
  ∧ ∃ msg, Eval (E:=literalRegexp) (LikeStatement ctx_h1 "hostname" "(")
           = ([LikeStatement ctx_h1 "hostname" "("], Panic msg).
Proof.
  apply (LikeStatement_Eval_panics_on_invalid_regex (E:=literalRegexp)).
  reflexivity.
Defined.

(** A statement over [agentid] is valid, and its [Eval] dereferences the
    agent identifier of the offer: it panics on an offer without one and on
    a statement whose context was never set. *)
Lemma Eval_agentid_nil_panics {E : RegexpEngine} (needle : string) :
  Valid (ContainsStatement ctx_anonymous "agentid" needle) = None
  ∧ outcome (Eval (ContainsStatement ctx_anonymous "agentid" needle))
    = Panic nil_deref
  ∧ outcome (Eval (ContainsStatement noContext "agentid" needle))
    = Panic nil_deref.
Proof. repeat split. Qed.

End ConstraintsFacts.

(** * Properties of Go's string functions *)

Module GoStringsFacts.

Import GoStrings.

Lemma length_append (s1 s2 : string) :
  String.length (s1 ++ s2) = String.length s1 + String.length s2.
Proof. induction s1 as [|c s1 IH]; simpl; [done | by rewrite IH]. Qed.

Lemma substring_full (s : string) : String.substring 0 (String.length s) s = s.
Proof. induction s as [|c s IH]; simpl; [done | by rewrite IH]. Qed.

Lemma substring_append_r (p q : string) :
  String.substring (String.length p) (String.length q) (p ++ q) = q.
Proof. induction p as [|c p IH]; simpl; [apply substring_full | done]. Qed.

Lemma substring_split (s : string) (n m : nat) :
  n + m = String.length s →
  String.substring 0 n s ++ String.substring n m s = s.
Proof.
  revert n. induction s as [|c s IH]; intros [|n] Hlen; simpl in *.
  - by destruct m.
  - done.
  - subst m. simpl. by rewrite substring_full.
  - change (String c (String.substring 0 n s ++ String.substring n m s)
            = String c s).
    rewrite IH; [done | lia].
Qed.

(** [HasSuffix s suffix] holds exactly when [s] is some prefix followed by
    [suffix]. *)
Lemma HasSuffix_spec (s suffix : string) :
  HasSuffix s suffix = true ↔ ∃ prefix, s = prefix ++ suffix.
Proof.
  unfold HasSuffix. rewrite andb_true_iff, Nat.leb_le, String.eqb_eq. split.
  - intros [Hle Hsub].
    exists (String.substring 0 (String.length s - String.length suffix) s).
    symmetry.
    rewrite <- (substring_split s (String.length s - String.length suffix)
                  (String.length suffix)) at 3 by lia.
    by rewrite Hsub.
  - intros [prefix ->]. rewrite length_append. split; [lia|].
    replace (String.length prefix + String.length suffix - String.length suffix)
      with (String.length prefix) by lia.
    apply substring_append_r.
Qed.

End GoStringsFacts.

(** * Properties of the upstream registry *)

Module JanitorFacts.

Import Janitor Examples.

(** ** The searches *)

Lemma getUpstreamByID_None us (appID : string) :
  getUpstreamByID us appID = None
  ↔ ∀ u, u ∈ upstreams us → Upstream.AppID u ≠ appID.
Proof. unfold getUpstreamByID. by rewrite list_find_None, Forall_forall. Qed.

Lemma getUpstreamByAlias_None us (alias : string) :
  getUpstreamByAlias us alias = None
  ↔ ∀ u, u ∈ upstreams us → Upstream.AppAlias u ≠ alias.
Proof. unfold getUpstreamByAlias. by rewrite list_find_None, Forall_forall. Qed.

Lemma getUpstreamByID_Some us (appID : string) i u :
  getUpstreamByID us appID = Some (i, u) ↔ first_upstream us appID i u.
Proof. unfold getUpstreamByID, first_upstream. by rewrite list_find_Some. Qed.

Lemma Upstream_getTarget_Some store u (taskID : string) k t :
  Upstream_getTarget store u taskID = Some (k, t)
  ↔ first_target store u taskID k t.
Proof. unfold Upstream_getTarget, first_target. by rewrite list_find_Some. Qed.

Lemma Upstream_getTarget_None store u (taskID : string) :
  Upstream_getTarget store u taskID = None
  ↔ ∀ t, t ∈ Upstream.Targets u →
      Target.TaskID <$> store !! t ≠ Some taskID.
Proof. unfold Upstream_getTarget. by rewrite list_find_None, Forall_forall. Qed.

(** ** C7 *)

(** C7, as the code has it. The suffix is what [Target.valid] checks: every
    target [valid] answers nil for has an application and a task identifier,
    an address and a port, and its task identifier is some prefix followed
    by ["-"] and the application identifier. [upsertTarget] does not call
    [valid]. *)
Theorem valid_TaskID_suffix (t : Target.t) :
  valid (Some t) = None →
  (∃ prefix, Target.TaskID t = prefix ++ "-" ++ Target.AppID t)
  ∧ Target.AppID t ≠ "" ∧ Target.TaskID t ≠ ""
  ∧ Target.TaskIP t ≠ "" ∧ Target.TaskPort t ≠ 0%N.
Proof.
  unfold valid.
  destruct (String.eqb_spec (Target.AppID t) ""); [done|].
  destruct (String.eqb_spec (Target.TaskID t) ""); [done|].
  destruct (String.eqb_spec (Target.TaskIP t) ""); [done|].
  destruct (N.eqb_spec (Target.TaskPort t) 0); [done|]. simpl.
  destruct (GoStrings.HasSuffix _ _) eqn:Hsuf; [|done].
  intros _. by apply GoStringsFacts.HasSuffix_spec in Hsuf.
Qed.

Lemma valid_TaskID_suffix_witness :
  ∃ prefix, Target.TaskID target_A = prefix ++ "-" ++ Target.AppID target_A.
Proof.
  destruct (valid_TaskID_suffix target_A) as [Hsuf _]; [reflexivity|].
  exact Hsuf.
Defined.

(** C7, the specification against the code: [upsertTarget] inserts the target of the
    application [a] and of the task [x] into the empty registry and answers
    nil; ["x"] does not end with ["-a"], and [valid] refuses the target. *)
Lemma upsertTarget_accepts_unsuffixed_TaskID :
  upsertTarget firstBalancer registry_empty 3
  = (Ok None,
     {| store := store0;
        upstreams :=
          [ {| Upstream.AppID := "a"; Upstream.AppAlias := "x";
               Upstream.Targets := [3];
               Upstream.sessions := Sessions.newSessions;
               Upstream.balancer := firstBalancer |} ] |})
  ∧ store0 !! 3 = Some target_x
  ∧ GoStrings.HasSuffix (Target.TaskID target_x) ("-" ++ Target.AppID target_x)
    = false
  ∧ valid (Some target_x) = Some "invalid task_id, must be suffixed by app_id".
Proof. repeat split. Qed.

(** ** C6 *)

Section UpsertTarget.

Variable WeightBalancer : Balancer.

Lemma alter_lookup_insert (store : gmap nat Target.t) (t : nat)
    (f : Target.t → Target.t) (old : Target.t) :
  store !! t = Some old → alter f t store = <[t := f old]> store.
Proof.
  intros Hold. apply map_eq. intros t'.
  destruct (decide (t' = t)) as [->|Hne].
  - by rewrite lookup_alter_eq, lookup_insert_eq, Hold.
  - by rewrite lookup_alter_ne, lookup_insert_ne.
Qed.

(** C6. For a target [tg] at [target]. Its application not registered: an
    upstream of its alias makes [upsertTarget] answer an error and leave the
    registry as it is; without one, an upstream of the application and of the
    alias, holding the target alone, is appended. Its application
    registered, [u] being its upstream: a target [old] of [u] of the same
    task is updated in place, the pointer staying where it is: the store
    holds at that pointer the version, the application version, the address,
    the port and the weight of [tg] with the identifiers and the alias of
    [old], and nothing else changes; without one, the target is appended to
    the targets of [u]. *)
Theorem upsertTarget_spec (us : Upstreams) (target : nat) (tg : Target.t) :
  store us !! target = Some tg →
  ((∀ u, u ∈ upstreams us → Upstream.AppID u ≠ Target.AppID tg) →
     ((∃ u, u ∈ upstreams us ∧ Upstream.AppAlias u = Target.AppAlias tg) →
        ∃ msg, upsertTarget WeightBalancer us target = (Ok (Some msg), us))
     ∧ ((∀ u, u ∈ upstreams us → Upstream.AppAlias u ≠ Target.AppAlias tg) →
        upsertTarget WeightBalancer us target
        = (Ok None,
           {| store := store us;
              upstreams :=
                upstreams us ++
                [ {| Upstream.AppID := Target.AppID tg;
                     Upstream.AppAlias := Target.AppAlias tg;
                     Upstream.Targets := [target];
                     Upstream.sessions := Sessions.newSessions;
                     Upstream.balancer := WeightBalancer |} ] |})))
  ∧ (∀ i u, first_upstream us (Target.AppID tg) i u →
       (∀ k t old,
          first_target (store us) u (Target.TaskID tg) k t →
          store us !! t = Some old →
          upsertTarget WeightBalancer us target
          = (Ok None,
             {| store :=
                  <[t := {| Target.AppID := Target.AppID old;
                            Target.AppAlias := Target.AppAlias old;
                            Target.VersionID := Target.VersionID tg;
                            Target.AppVersion := Target.AppVersion tg;
                            Target.TaskID := Target.TaskID old;
                            Target.TaskIP := Target.TaskIP tg;
                            Target.TaskPort := Target.TaskPort tg;
                            Target.Weight := Target.Weight tg |}]>
                    (store us);
                upstreams := upstreams us |}))
       ∧ ((∀ t, t ∈ Upstream.Targets u →
             Target.TaskID <$> store us !! t ≠ Some (Target.TaskID tg)) →
          upsertTarget WeightBalancer us target
          = (Ok None,
             {| store := store us;
                upstreams :=
                  <[i := {| Upstream.AppID := Upstream.AppID u;
                            Upstream.AppAlias := Upstream.AppAlias u;
                            Upstream.Targets := Upstream.Targets u ++ [target];
                            Upstream.sessions := Upstream.sessions u;
                            Upstream.balancer := Upstream.balancer u |}]>
                    (upstreams us) |}))).
Proof.
  intros Htg. unfold upsertTarget. rewrite Htg. split.
  - intros Hid%getUpstreamByID_None. rewrite Hid. split.
    + intros (u & Hu & Halias).
      destruct (getUpstreamByAlias us (Target.AppAlias tg)) as [p|] eqn:Hal.
      * eauto.
      * destruct (proj1 (getUpstreamByAlias_None _ _) Hal u Hu Halias).
    + intros Hal%getUpstreamByAlias_None. by rewrite Hal.
  - intros i u Hu%getUpstreamByID_Some. rewrite Hu. split.
    + intros k t old Ht%Upstream_getTarget_Some Hold. rewrite Ht.
      by rewrite (alter_lookup_insert _ _ _ old Hold).
    + intros Ht%Upstream_getTarget_None. by rewrite Ht.
Qed.

(** What the update in place copies: five fields of the new target; the
    identifiers and the alias of the old one stay, and no other target
    changes. *)
Lemma updateTarget_in_place (store : gmap nat Target.t) (t : nat)
    (tg old : Target.t) :
  store !! t = Some old →
  alter (updateTarget tg) t store !! t
    = Some {| Target.AppID := Target.AppID old;
              Target.AppAlias := Target.AppAlias old;
              Target.VersionID := Target.VersionID tg;
              Target.AppVersion := Target.AppVersion tg;
              Target.TaskID := Target.TaskID old;
              Target.TaskIP := Target.TaskIP tg;
              Target.TaskPort := Target.TaskPort tg;
              Target.Weight := Target.Weight tg |}
  ∧ ∀ t', t' ≠ t → alter (updateTarget tg) t store !! t' = store !! t'.
Proof.
  intros Hold. split.
  - by rewrite lookup_alter_eq, Hold.
  - intros t' Hne. by rewrite lookup_alter_ne.
Qed.

End UpsertTarget.

(** Scenario 5 of the specification, the application [B] asking for the
    alias of [A]; the version 2 of the task of [A], which updates the target
    at the pointer 0 in place; and the first target of all, for which the
    upstream of [A] is made. *)
Lemma upsertTarget_spec_witness :
  (∃ msg, upsertTarget firstBalancer registry_A 1 = (Ok (Some msg), registry_A))
  ∧ upsertTarget firstBalancer registry_A 2
    = (Ok None,
       {| store :=
            <[0 := {| Target.AppID := "A"; Target.AppAlias := "foo";
                      Target.VersionID := "v2"; Target.AppVersion := "2";
                      Target.TaskID := "0-A"; Target.TaskIP := "10.0.0.9";
                      Target.TaskPort := 81; Target.Weight := 3 |}]> store0;
          upstreams := [upstream_A Sessions.newSessions] |})
  ∧ upsertTarget firstBalancer registry_empty 0
    = (Ok None,
       {| store := store0; upstreams := [upstream_A Sessions.newSessions] |}).
Proof.
  split; [|split].
  - destruct (upsertTarget_spec firstBalancer registry_A 1 target_B)
      as [Hnew _]; [reflexivity|].
    destruct Hnew as [Hconflict _].
    + intros u Hu. apply list_elem_of_singleton in Hu. subst u. discriminate.
    + apply Hconflict. exists (upstream_A Sessions.newSessions).
      split; [apply list_elem_of_singleton; reflexivity | reflexivity].
  - destruct (upsertTarget_spec firstBalancer registry_A 2 target_A')
      as [_ Hreg]; [reflexivity|].
    destruct (Hreg 0 (upstream_A Sessions.newSessions)) as [Hupdate _].
    + split; [reflexivity|]. split; [reflexivity|]. intros j v _ Hlt. lia.
    + apply (Hupdate 0 0 target_A); [|reflexivity].
      split; [reflexivity|]. split; [reflexivity|]. intros j v _ Hlt. lia.
  - destruct (upsertTarget_spec firstBalancer registry_empty 0 target_A)
      as [Hnew _]; [reflexivity|].
    destruct Hnew as [_ Hfresh].
    + intros u Hu. by apply elem_of_nil in Hu.
    + apply Hfresh. intros u Hu. by apply elem_of_nil in Hu.
Defined.

(** ** C10 *)

Lemma first_upstream_insert us (appID : string) i u u' :
  first_upstream us appID i u →
  Upstream.AppID u' = Upstream.AppID u →
  first_upstream (setUpstreams us (<[i := u']> (upstreams us))) appID i u'.
Proof.
  intros (Hi & Hid & Hfirst) Hid'. repeat split; simpl.
  - apply list_lookup_insert_eq. by eapply lookup_lt_Some.
  - congruence.
  - intros j v Hj Hlt. rewrite list_lookup_insert_ne in Hj by lia. eauto.
Qed.

(** How [lookup] ends, by the pointer it found: nothing changes without
    one; with one, the session of the address is bound to it at the upstream
    of the application, at the time of the call. *)
Lemma lookup_unfold us (remoteIP appID taskID : string) now i u :
  first_upstream us appID i u →
  lookup us remoteIP appID taskID now
  = match
      match Sessions.get (Upstream.sessions u) remoteIP with
      | Some t => Some t
      | None =>
          if negb (String.eqb taskID "")
          then snd <$> Upstream_getTarget (store us) u taskID
          else Next (Upstream.balancer u) (store us) (Upstream.Targets u)
      end
    with
    | None => (None, us)
    | Some t =>
        (Some t,
         setUpstreams us
           (<[i := setSessions u
                     (Sessions.update (Upstream.sessions u) remoteIP t now)]>
              (upstreams us)))
    end.
Proof.
  intros Hu%getUpstreamByID_Some.
  unfold lookup, getTarget, nextTarget. by rewrite Hu.
Qed.

(** A call of [lookup] that answers a target leaves the registry with the
    session of the address updated at the upstream of the application. *)
Lemma lookup_Some us (remoteIP appID taskID : string) now t us' :
  lookup us remoteIP appID taskID now = (Some t, us') →
  ∃ i u,
    first_upstream us appID i u
    ∧ us' = setUpstreams us
              (<[i := setSessions u
                        (Sessions.update (Upstream.sessions u) remoteIP t now)]>
                 (upstreams us)).
Proof.
  intros Hlookup.
  destruct (getUpstreamByID us appID) as [[i u]|] eqn:Hu;
    [|unfold lookup in Hlookup; by rewrite Hu in Hlookup].
  apply getUpstreamByID_Some in Hu.
  rewrite (lookup_unfold _ _ _ _ _ i u Hu) in Hlookup.
  destruct (match Sessions.get _ _ with Some _ => _ | None => _ end) as [t'|];
    [|done].
  injection Hlookup as -> <-. by exists i, u.
Qed.

(** C10. Every call of [lookup] that answers a target binds the session of
    the address to that very target, at the upstream of the application and
    at the time of the call, wherever the target came from: the session, the
    task named, or the balancer. Nothing else of the registry changes. *)
Theorem lookup_binds_session us (remoteIP appID taskID : string) now t us' :
  lookup us remoteIP appID taskID now = (Some t, us') →
  ∃ i u u',
    first_upstream us appID i u
    ∧ first_upstream us' appID i u'
    ∧ Sessions.m (Upstream.sessions u') !! remoteIP = Some (t, now)
    ∧ Sessions.get (Upstream.sessions u') remoteIP = Some t
    ∧ u' = setSessions u (Sessions.update (Upstream.sessions u) remoteIP t now)
    ∧ us' = setUpstreams us (<[i := u']> (upstreams us)).
Proof.
  intros (i & u & Hu & ->)%lookup_Some.
  eexists i, u, _. split; [done|]. split; [|split; [|split; [|done]]].
  - by apply (first_upstream_insert us appID i u).
  - simpl. apply lookup_insert_eq.
  - unfold Sessions.get. simpl. by rewrite lookup_insert_eq.
Qed.

(** The three sources of the target, each of them binding the session. *)
Lemma lookup_binds_from us (remoteIP appID taskID : string) now i u t :
  first_upstream us appID i u →
  Sessions.get (Upstream.sessions u) remoteIP = Some t
  ∨ (Sessions.get (Upstream.sessions u) remoteIP = None
     ∧ taskID ≠ ""
     ∧ snd <$> Upstream_getTarget (store us) u taskID = Some t)
  ∨ (Sessions.get (Upstream.sessions u) remoteIP = None
     ∧ taskID = ""
     ∧ Next (Upstream.balancer u) (store us) (Upstream.Targets u) = Some t) →
  lookup us remoteIP appID taskID now
  = (Some t,
     setUpstreams us
       (<[i := setSessions u
                 (Sessions.update (Upstream.sessions u) remoteIP t now)]>
          (upstreams us))).
Proof.
  intros Hu Hsrc. rewrite (lookup_unfold _ _ _ _ _ i u Hu).
  destruct Hsrc as [->|[(-> & Hne & ->)|(-> & -> & ->)]]; try done.
  by destruct (String.eqb_spec taskID "").
Qed.

Lemma lookup_binds_session_witness :
  ∃ i u u',
    first_upstream registry_A "A" i u
    ∧ first_upstream (lookup registry_A "1.2.3.4" "A" "" 5).2 "A" i u'
    ∧ Sessions.m (Upstream.sessions u') !! "1.2.3.4" = Some (0, 5)
    ∧ Sessions.get (Upstream.sessions u') "1.2.3.4" = Some 0
    ∧ u' = setSessions u
             (Sessions.update (Upstream.sessions u) "1.2.3.4" 0 5)
    ∧ (lookup registry_A "1.2.3.4" "A" "" 5).2
      = setUpstreams registry_A (<[i := u']> (upstreams registry_A)).
Proof.
  apply (lookup_binds_session registry_A "1.2.3.4" "A" "" 5 0).
  vm_compute. reflexivity.
Defined.

(** X24. Session affinity: after a call that answered a target, a second
    call for the same address and application answers the same target,
    whatever task it names. *)
Lemma lookup_affinity us (remoteIP appID taskID taskID' : string) now now' t us' :
  lookup us remoteIP appID taskID now = (Some t, us') →
  (lookup us' remoteIP appID taskID' now').1 = Some t.
Proof.
  intros (i & u & Hu & ->)%lookup_Some.
  erewrite lookup_unfold;
    [|by apply (first_upstream_insert us appID i u)].
  unfold Sessions.get. simpl. by rewrite lookup_insert_eq.
Qed.

(** ** C8 *)

Lemma first_upstream_elem_of us (appID : string) i u :
  first_upstream us appID i u → u ∈ upstreams us.
Proof. intros (Hi & _). apply list_elem_of_lookup. eauto. Qed.



Lemma sessions_live_registry_A : sessions_live registry_A.
Proof.
  intros u remoteIP t Hu Hget.
  apply list_elem_of_singleton in Hu. subst u.
  unfold Sessions.get in Hget. simpl in Hget.
  rewrite lookup_empty in Hget. discriminate Hget.
Defined.



(** ** The invariant of the registry *)

Lemma list_elem_of_insert_inv {A} (l : list A) (i : nat) (x y : A) :
  y ∈ <[i := x]> l → y = x ∨ y ∈ l.
Proof.
  intros [j Hj]%list_elem_of_lookup.
  apply list_lookup_insert_Some in Hj as [(_ & -> & _)|[_ Hj]]; [by left|].
  right. apply list_elem_of_lookup. eauto.
Qed.

Lemma lookup_None us (remoteIP appID taskID : string) now us' :
  lookup us remoteIP appID taskID now = (None, us') → us' = us.
Proof.
  unfold lookup. destruct (getUpstreamByID us appID) as [[i u]|]; [|congruence].
  destruct (match Sessions.get _ _ with Some _ => _ | None => _ end);
    [done | congruence].
Qed.

Section Invariant.

Variable WeightBalancer : Balancer.

Hypothesis WeightBalancer_sound : balancer_sound WeightBalancer.

Lemma registry_inv_empty store :
  registry_inv WeightBalancer {| store := store; upstreams := [] |}.
Proof. split; intros u; simpl; intros; by decompose_list_elem_of. Qed.

Lemma upsertTarget_inv us target :
  registry_inv WeightBalancer us →
  registry_inv WeightBalancer (upsertTarget WeightBalancer us target).2.
Proof.
  intros [Hlive Hbal]. unfold upsertTarget.
  destruct (store us !! target) as [tg|]; [|done].
  destruct (getUpstreamByID us (Target.AppID tg)) as [[i u]|] eqn:Hu.
  - apply getUpstreamByID_Some, first_upstream_elem_of in Hu.
    destruct (Upstream_getTarget _ _ _) as [[k t]|]; [done|]. simpl.
    split.
    + intros v remoteIP t [->|Hv]%list_elem_of_insert_inv Hget.
      * simpl in *. apply elem_of_app. left. eauto.
      * eauto.
    + intros v [->|Hv]%list_elem_of_insert_inv; simpl; eauto.
  - destruct (getUpstreamByAlias _ _); [done|]. simpl. split.
    + intros v remoteIP t [Hv| ->%list_elem_of_singleton]%elem_of_app Hget.
      * eauto.
      * unfold Sessions.get in Hget. simpl in Hget.
        by rewrite lookup_empty in Hget.
    + intros v [Hv| ->%list_elem_of_singleton]%elem_of_app; simpl; eauto.
Qed.

Lemma removeTarget_inv us target :
  registry_inv WeightBalancer us →
  registry_inv WeightBalancer (removeTarget us target).2.
Proof.
  intros [Hlive Hbal]. unfold removeTarget.
  destruct (store us !! target) as [tg|]; [|done].
  destruct (getUpstreamByID us (Target.AppID tg)) as [[idxu u]|] eqn:Hu;
    [|done].
  apply getUpstreamByID_Some, first_upstream_elem_of in Hu.
  destruct (Upstream_getTarget _ _ _) as [[idxt t0]|] eqn:Ht; [|done].
  apply Upstream_getTarget_Some in Ht as (Hidxt & Htask & _).
  destruct (Nat.eqb _ 0); simpl.
  - split.
    + intros v remoteIP t Hv%list_elem_of_delete_inv. eauto.
    + intros v Hv%list_elem_of_delete_inv. eauto.
  - split.
    + intros v remoteIP t [->|Hv]%list_elem_of_insert_inv Hget; [|eauto].
      unfold Sessions.get in Hget. simpl in *.
      destruct (filter _ _ !! remoteIP) as [[t' seen]|] eqn:Hf; [|done].
      injection Hget as ->.
      apply map_lookup_filter_Some in Hf as [Hm Hkeep]. simpl in Hkeep.
      assert (t ∈ Upstream.Targets u) as [k Hk]%list_elem_of_lookup.
      { eapply Hlive; [done|]. unfold Sessions.get. by rewrite Hm. }
      assert (k ≠ idxt) by (intros ->; congruence).
      apply list_elem_of_lookup.
      destruct (decide (k < idxt)).
      * exists k. by rewrite list_lookup_delete_lt.
      * exists (pred k). rewrite list_lookup_delete_ge by lia.
        by replace (S (pred k)) with k by lia.
    + intros v [->|Hv]%list_elem_of_insert_inv; simpl; eauto.
Qed.

(** The target [lookup] answers is a target of the upstream. *)
Lemma lookup_target_elem_of us (remoteIP appID taskID : string) now t us' i u :
  registry_inv WeightBalancer us →
  first_upstream us appID i u →
  lookup us remoteIP appID taskID now = (Some t, us') →
  t ∈ Upstream.Targets u.
Proof.
  intros [Hlive Hbal] Hu. rewrite (lookup_unfold _ _ _ _ _ i u Hu).
  pose proof (first_upstream_elem_of _ _ _ _ Hu) as Hin.
  destruct (Sessions.get _ _) as [t'|] eqn:Hget.
  - intros [= -> _]. eauto.
  - destruct (negb _).
    + destruct (Upstream_getTarget _ _ _) as [[k t']|] eqn:Ht; [|done].
      intros [= -> _]. apply Upstream_getTarget_Some in Ht as (Hk & _).
      apply list_elem_of_lookup. eauto.
    + destruct (Next _ _ _) as [t'|] eqn:Hnext; [|done].
      intros [= -> _]. rewrite (Hbal u Hin) in Hnext.
      by eapply WeightBalancer_sound.
Qed.

Lemma lookup_inv us (remoteIP appID taskID : string) now :
  registry_inv WeightBalancer us →
  registry_inv WeightBalancer (lookup us remoteIP appID taskID now).2.
Proof.
  intros Hinv.
  destruct (lookup us remoteIP appID taskID now) as [[t|] us'] eqn:Hlookup;
    [|by rewrite (lookup_None _ _ _ _ _ _ Hlookup)].
  destruct (lookup_Some _ _ _ _ _ _ _ Hlookup) as (i & u & Hu & ->).
  pose proof (lookup_target_elem_of _ _ _ _ _ _ _ _ _ Hinv Hu Hlookup) as Ht.
  pose proof (first_upstream_elem_of _ _ _ _ Hu) as Hin.
  destruct Hinv as [Hlive Hbal]. simpl. split.
  - intros v ip t' [->|Hv]%list_elem_of_insert_inv Hget; [|eauto].
    unfold Sessions.get in Hget. simpl in *.
    destruct (decide (ip = remoteIP)) as [->|Hne].
    + rewrite lookup_insert_eq in Hget. by injection Hget as <-.
    + rewrite lookup_insert_ne in Hget by done. eauto.
  - intros v [->|Hv]%list_elem_of_insert_inv; simpl; eauto.
Qed.

Lemma lookupAlias_inv us (remoteIP appAlias : string) now :
  registry_inv WeightBalancer us →
  registry_inv WeightBalancer (lookupAlias us remoteIP appAlias now).2.
Proof.
  intros Hinv. unfold lookupAlias.
  destruct (getUpstreamByAlias us appAlias) as [[i u]|]; [|done].
  by apply lookup_inv.
Qed.

(** The invariant holds of every registry the calls lead to. *)
Lemma reachable_inv us :
  reachable WeightBalancer us → registry_inv WeightBalancer us.
Proof.
  induction 1 as [store|us store' _ [Hlive Hbal]|us target _ IH
                 |us target _ IH|us ip appID taskID now _ IH
                 |us ip alias now _ IH].
  - apply registry_inv_empty.
  - by split.
  - by apply upsertTarget_inv.
  - by apply removeTarget_inv.
  - by apply lookup_inv.
  - by apply lookupAlias_inv.
Qed.

(** X25. The sessions of every registry the calls lead to are live, the
    balancer answering one of the targets it is given: every session of an
    upstream points to a target of that upstream. *)
Lemma reachable_sessions_live us :
  reachable WeightBalancer us → sessions_live us.
Proof. intros Hr. by destruct (reachable_inv us Hr). Qed.

End Invariant.

End JanitorFacts.

(** * More on the application state machine *)

Module StateMachineLaws.

Import StateMachine Examples.

(** X1. [StateFactory] inverts [Name] on the states it builds: it answers
    the state [s] for a name exactly when the name is the one of [s] and [s]
    is neither the updating nor the cancel-update state; for the names of
    these two, and for every string that is no state name, it panics. *)
Theorem StateFactory_inverts_Name (stateName : string) (s : State) :
  StateFactory stateName = Ok s
  ↔ Name s = stateName ∧ s ≠ StateUpdating ∧ s ≠ StateCancelUpdate.
Proof.
  split.
  - intros Hf. pose proof (StateMachineFacts.StateFactory_Name _ _ Hf) as <-.
    split; [done|]. by destruct s.
  - intros (<- & Hu & Hc). by destruct s.
Qed.

(** X2. A call of [TransitTo] that answers nil: the state permitted the
    transition, the mutex was free and is free again, the machine is in a
    state of the name asked for, which [Is] and [ReadableState] answer, and
    [OnExit] of the old state was called before [OnEnter] of the new one,
    after the hooks called so far. *)
Theorem TransitTo_nil_installs
    (can : State → string → bool) machine (target : string) machine' :
  TransitTo can machine target = Returned None machine' →
  ∃ s s',
    state machine = Some s ∧ can s target = true ∧ lock machine = false
    ∧ state machine' = Some s' ∧ Name s' = target
    ∧ Is machine' target = Ok true
    ∧ ReadableState machine' = Ok target
    ∧ lock machine' = false
    ∧ hooks machine' = (hooks machine ++ [OnExit s; OnEnter s'])%list.
Proof.
  unfold TransitTo. destruct (state machine) as [s|] eqn:Hs; [|done].
  destruct (can s target) eqn:Hcan; [|done].
  destruct (lock machine) eqn:Hlock; [done|].
  destruct (StateFactory target) as [s'|] eqn:Hf; [|done].
  intros [= <-]. apply StateMachineFacts.StateFactory_Name in Hf as <-.
  exists s, s'. unfold Is, ReadableState. simpl.
  rewrite String.eqb_refl, <- app_assoc. done.
Qed.

Lemma TransitTo_nil_installs_witness :
  ∃ s s',
    state machine_normal = Some s
    ∧ CanTransitTo_table s APP_STATE_SCALE_UP = true
    ∧ lock machine_normal = false
    ∧ state {| state := Some StateScaleUp; lock := false;
               hooks := [OnExit StateNormal; OnEnter StateScaleUp] |} = Some s'
    ∧ Name s' = APP_STATE_SCALE_UP
    ∧ Is {| state := Some StateScaleUp; lock := false;
            hooks := [OnExit StateNormal; OnEnter StateScaleUp] |}
         APP_STATE_SCALE_UP = Ok true
    ∧ ReadableState
        {| state := Some StateScaleUp; lock := false;
           hooks := [OnExit StateNormal; OnEnter StateScaleUp] |}
      = Ok APP_STATE_SCALE_UP
    ∧ lock {| state := Some StateScaleUp; lock := false;
              hooks := [OnExit StateNormal; OnEnter StateScaleUp] |} = false
    ∧ hooks {| state := Some StateScaleUp; lock := false;
               hooks := [OnExit StateNormal; OnEnter StateScaleUp] |}
      = (hooks machine_normal ++ [OnExit s; OnEnter s'])%list.
Proof.
  apply (TransitTo_nil_installs CanTransitTo_table machine_normal
           APP_STATE_SCALE_UP).
  reflexivity.
Defined.

(** X3. A call of [TransitTo] that answers an error changed nothing: the
    machine is the one it was called on, no hook was called and the mutex
    was not taken; the state had refused the transition, and the error names
    the state and the target. *)
Theorem TransitTo_error_unchanged
    (can : State → string → bool) machine (target err : string) machine' :
  TransitTo can machine target = Returned (Some err) machine' →
  machine' = machine
  ∧ ∃ s, state machine = Some s ∧ can s target = false
         ∧ err = "cann't transit from state: " ++ Name s
                 ++ " to state: " ++ target.
Proof.
  intros Ht.
  destruct (StateMachineFacts.TransitTo_refused_inv _ _ _ _ _ Ht) as [-> Hs].
  split; [done|]. destruct Hs as (s & Hs & Hcan).
  exists s. split; [done|]. split; [done|].
  revert Ht. unfold TransitTo. rewrite Hs, Hcan. by intros [= ->].
Qed.

Lemma TransitTo_error_unchanged_witness :
  machine_normal = machine_normal
  ∧ ∃ s, state machine_normal = Some s
         ∧ CanTransitTo_table s APP_STATE_CREATING = false
         ∧ "cann't transit from state: normal to state: creating"
           = "cann't transit from state: " ++ Name s
             ++ " to state: " ++ APP_STATE_CREATING.
Proof.
  apply (TransitTo_error_unchanged CanTransitTo_table machine_normal
           APP_STATE_CREATING).
  reflexivity.
Defined.

(** X4. A call of [TransitTo] on a started machine that panics does so in
    [StateFactory], after [OnExit] of the state was called and with the
    mutex taken: the state is the old one, and the mutex is never released, so
    that every later call the state permits waits for it. *)
Theorem TransitTo_panic_keeps_lock
    (can : State → string → bool) machine (target msg : string) machine' s :
  state machine = Some s →
  TransitTo can machine target = Panicked msg machine' →
  msg = "unrecognized state"
  ∧ StateFactory target = Panic msg
  ∧ state machine' = Some s
  ∧ lock machine' = true
  ∧ hooks machine' = (hooks machine ++ [OnExit s])%list
  ∧ ∀ target', can s target' = true →
      TransitTo can machine' target' = Blocked machine'.
Proof.
  intros Hs. unfold TransitTo at 1. rewrite Hs.
  destruct (can s target); [|done]. destruct (lock machine); [done|].
  destruct (StateFactory target) as [s'|msg'] eqn:Hf; [done|].
  intros [= <- <-]. repeat split.
  - revert Hf. unfold StateFactory.
    repeat match goal with
      | |- context [String.eqb ?a ?b] => destruct (String.eqb a b); [done|]
      end.
    by intros [= <-].
  - intros target' Hcan. unfold TransitTo. simpl. by rewrite Hcan.
Qed.

Lemma TransitTo_panic_keeps_lock_witness :
  "unrecognized state" = "unrecognized state"
  ∧ StateFactory APP_STATE_UPDATING = Panic "unrecognized state"
  ∧ state {| state := Some StateNormal; lock := true;
             hooks := [OnExit StateNormal] |} = Some StateNormal
  ∧ lock {| state := Some StateNormal; lock := true;
            hooks := [OnExit StateNormal] |} = true
  ∧ hooks {| state := Some StateNormal; lock := true;
             hooks := [OnExit StateNormal] |}
    = (hooks machine_normal ++ [OnExit StateNormal])%list
  ∧ ∀ target', CanTransitTo_table StateNormal target' = true →
      TransitTo CanTransitTo_table
        {| state := Some StateNormal; lock := true;
           hooks := [OnExit StateNormal] |} target'
      = Blocked {| state := Some StateNormal; lock := true;
                   hooks := [OnExit StateNormal] |}.
Proof.
  apply (TransitTo_panic_keeps_lock CanTransitTo_table machine_normal
           APP_STATE_UPDATING).
  - reflexivity.
  - reflexivity.
Defined.

(** X5. A started machine always has a state, and one [StateFactory] builds:
    whatever [CanTransitTo] permits and whichever calls of [TransitTo] were
    made, the machine is never in the updating or the cancel-update state,
    and [ReadableState] never panics. *)
Theorem started_never_updating (can : State → string → bool) machine :
  started can machine →
  ∃ s, state machine = Some s
       ∧ StateFactory (Name s) = Ok s
       ∧ ReadableState machine = Ok (Name s).
Proof.
  induction 1 as [m|m target err m' _ (s & Hs & Hb & _) Ht
                 |m target msg m' _ (s & Hs & Hb & _) Ht].
  - by exists StateCreating.
  - destruct err as [err|].
    + destruct (StateMachineFacts.TransitTo_refused_inv _ _ _ _ _ Ht) as [-> _].
      exists s. unfold ReadableState. by rewrite Hs.
    + revert Ht. unfold TransitTo. rewrite Hs.
      destruct (can s target); [|done]. destruct (lock m); [done|].
      destruct (StateFactory target) as [s'|] eqn:Hf; [|done].
      intros [= <-]. exists s'. repeat split.
      by rewrite (StateMachineFacts.StateFactory_Name _ _ Hf).
  - revert Ht. unfold TransitTo. rewrite Hs.
    destruct (can s target); [|done]. destruct (lock m); [done|].
    destruct (StateFactory target) as [s'|] eqn:Hf; [done|].
    intros [= _ <-]. exists s. unfold ReadableState. done.
Qed.

Lemma started_never_updating_witness :
  ∃ s, state (Start NewStateMachine) = Some s
       ∧ StateFactory (Name s) = Ok s
       ∧ ReadableState (Start NewStateMachine) = Ok (Name s).
Proof.
  apply (started_never_updating CanTransitTo_table).
  apply started_Start.
Defined.

End StateMachineLaws.

(** * More on Go's string functions *)

Module GoStringsLaws.

Import GoStrings.

Lemma HasPrefix_spec (s prefix : string) :
  HasPrefix s prefix = true ↔ ∃ q, s = prefix ++ q.
Proof.
  revert s. induction prefix as [|c p IH]; intros [|d s]; simpl.
  - split; [by exists "" | done].
  - split; [by exists (String d s) | done].
  - split; [done | by intros [q Hq]].
  - rewrite andb_true_iff, Ascii.eqb_eq, IH. split.
    + intros [-> [q ->]]. by exists q.
    + intros [q [= -> ->]]. eauto.
Qed.

(** [Contains s substr] holds exactly when [substr] occurs in [s]. *)
Lemma Contains_spec (s substr : string) :
  Contains s substr = true ↔ ∃ p q, s = p ++ substr ++ q.
Proof.
  induction s as [|c s IH]; cbn [Contains].
  - rewrite orb_false_r, HasPrefix_spec. split.
    + intros [q Hq]. by exists "", q.
    + intros ([|d p] & q & Hq); [by exists q | done].
  - rewrite orb_true_iff, HasPrefix_spec, IH. split.
    + intros [[q Hq]|(p & q & ->)]; [by exists "", q|].
      by exists (String c p), q.
    + intros ([|d p] & q & Hq); [left; by exists q|].
      right. injection Hq as -> ->. eauto.
Qed.

End GoStringsLaws.

(** * More on the constraint statements *)

Module ConstraintsLaws.

Import Constraints Examples ConstraintsFacts.

(** ** Validation *)

Lemma leaves_are_leaves (s l : Statement) :
  l ∈ leaves s →
  match l with
  | NotStatement _ | AndStatement _ _ | OrStatement _ _ => False
  | _ => True
  end.
Proof.
  induction s as [a IHa|a IHa b IHb|a IHa b IHb|ctx what|ctx what re|ctx what re];
    cbn [leaves]; intros Hl.
  - exact (IHa Hl).
  - apply elem_of_app in Hl as [Hl|Hl]; [exact (IHa Hl) | exact (IHb Hl)].
  - apply elem_of_app in Hl as [Hl|Hl]; [exact (IHa Hl) | exact (IHb Hl)].
  - by apply list_elem_of_singleton in Hl as ->.
  - by apply list_elem_of_singleton in Hl as ->.
  - by apply list_elem_of_singleton in Hl as ->.
Qed.

Lemma Valid_None_leaves (s : Statement) :
  Valid s = None ↔ ∀ l, l ∈ leaves s → Valid l = None.
Proof.
  split; [intros Hv l; by apply Valid_leaves|].
  induction s as [a IHa|a IHa b IHb|a IHa b IHb|ctx what|ctx what re|ctx what re];
    cbn [leaves]; intros Hl.
  - by apply IHa.
  - cbn [Valid]. rewrite IHa; [apply IHb|]; intros l ?; apply Hl, elem_of_app; auto.
  - cbn [Valid]. rewrite IHa; [apply IHb|]; intros l ?; apply Hl, elem_of_app; auto.
  - apply Hl, list_elem_of_singleton. done.
  - apply Hl, list_elem_of_singleton. done.
  - apply Hl, list_elem_of_singleton. done.
Qed.

(** X6. A statement is valid exactly when every [unique] among its leaves
    is over [hostname] and every [like] and [contains] among them is over
    [hostname] or [agentid]; the patterns, the needles and the contexts do
    not matter. *)
Theorem Valid_iff_leaves (s : Statement) :
  Valid s = None
  ↔ (∀ ctx what, UniqueStatment ctx what ∈ leaves s → what = "hostname")
    ∧ (∀ ctx what regex,
         LikeStatement ctx what regex ∈ leaves s
         ∨ ContainsStatement ctx what regex ∈ leaves s →
         what = "hostname" ∨ what = "agentid").
Proof.
  rewrite Valid_None_leaves. split.
  - intros Hl. split.
    + intros ctx what Hin. by apply (Valid_Unique_iff ctx), Hl.
    + intros ctx what regex [Hin|Hin].
      * by apply (proj1 (Valid_Like_Contains_iff ctx what regex)), Hl.
      * by apply (proj2 (Valid_Like_Contains_iff ctx what regex)), Hl.
  - intros [Hu Hlc] l Hin.
    pose proof (leaves_are_leaves _ _ Hin) as Hleaf.
    destruct l as [a|a b|a b|ctx what|ctx what re|ctx what re]; try done.
    + apply Valid_Unique_iff. by eapply Hu.
    + apply Valid_Like_Contains_iff. eapply Hlc. by left.
    + apply Valid_Like_Contains_iff. eapply Hlc. by right.
Qed.

(** X7. The error of [Valid] is the one of the first invalid leaf from the
    left: [Valid] goes through the operands from left to right, [Op1] before
    [Op2], the other way round than [Eval]. *)
Theorem Valid_first_error (s : Statement) :
  Valid s = head (omap Valid (leaves s)).
Proof.
  induction s as [a IHa|a IHa b IHb|a IHa b IHb|ctx what|ctx what re|ctx what re];
    cbn [leaves]; try (cbn [omap list_omap]; by destruct (Valid _)).
  - cbn [Valid]. rewrite omap_app, IHa, IHb. by destruct (omap Valid (leaves a)).
  - cbn [Valid]. rewrite omap_app, IHa, IHb. by destruct (omap Valid (leaves a)).
Qed.

(** X8. [SetContext] replaces the context of every leaf and nothing else:
    every leaf of the result holds the context given, the result has the
    operators of the statement and, leaf by leaf, its attributes, patterns
    and needles, so that a statement whose leaves hold the context already
    is left as it is; a second call overrides the first, and the answer of
    [Valid] does not depend on the context. *)
Theorem SetContext_laws (ctx ctx' : ConstraintContextHolder) (s : Statement) :
  (∀ l, l ∈ leaves (SetContext ctx s) → leafContext l = Some ctx)
  ∧ sameShape s (SetContext ctx s)
  ∧ ((∀ l, l ∈ leaves s → leafContext l = Some ctx) → SetContext ctx s = s)
  ∧ SetContext ctx (SetContext ctx' s) = SetContext ctx s
  ∧ Valid (SetContext ctx s) = Valid s.
Proof.
  induction s as [a IHa|a IHa b IHb|a IHa b IHb|c what|c what re|c what re];
    cbn [SetContext leaves sameShape Valid].
  - destruct IHa as (Ha1 & Ha2 & Ha3 & Ha4 & Ha5).
    repeat split; try done.
    + intros Hl. by rewrite Ha3.
    + by rewrite Ha4.
  - destruct IHa as (Ha1 & Ha2 & Ha3 & Ha4 & Ha5),
      IHb as (Hb1 & Hb2 & Hb3 & Hb4 & Hb5).
    repeat split; try done.
    + intros l [Hl|Hl]%elem_of_app; auto.
    + intros Hl. rewrite Ha3, Hb3; [done| |];
        intros l Hin; apply Hl, elem_of_app; auto.
    + by rewrite Ha4, Hb4.
    + by rewrite Ha5, Hb5.
  - destruct IHa as (Ha1 & Ha2 & Ha3 & Ha4 & Ha5),
      IHb as (Hb1 & Hb2 & Hb3 & Hb4 & Hb5).
    repeat split; try done.
    + intros l [Hl|Hl]%elem_of_app; auto.
    + intros Hl. rewrite Ha3, Hb3; [done| |];
        intros l Hin; apply Hl, elem_of_app; auto.
    + by rewrite Ha4, Hb4.
    + by rewrite Ha5, Hb5.
  - repeat split; try done.
    + by intros l ->%list_elem_of_singleton.
    + intros Hl. specialize (Hl _ (proj2 (list_elem_of_singleton _ _) eq_refl)).
      by injection Hl as ->.
  - repeat split; try done.
    + by intros l ->%list_elem_of_singleton.
    + intros Hl. specialize (Hl _ (proj2 (list_elem_of_singleton _ _) eq_refl)).
      by injection Hl as ->.
  - repeat split; try done.
    + by intros l ->%list_elem_of_singleton.
    + intros Hl. specialize (Hl _ (proj2 (list_elem_of_singleton _ _) eq_refl)).
      by injection Hl as ->.
Qed.

(** ** Evaluation *)

Section EvalLaws.

Context {E : RegexpEngine}.

(** X9. De Morgan's laws and the double negation hold of [Eval] as equations
    of runs: the two sides evaluate the same leaves in the same order and
    end alike, in a result or in a panic. *)
Theorem Eval_De_Morgan (op1 op2 : Statement) :
  Eval (NotStatement (AndStatement op1 op2))
    = Eval (OrStatement (NotStatement op1) (NotStatement op2))
  ∧ Eval (NotStatement (OrStatement op1 op2))
    = Eval (AndStatement (NotStatement op1) (NotStatement op2))
  ∧ Eval (NotStatement (NotStatement op1)) = Eval op1.
Proof.
  rewrite (Eval_Not (AndStatement _ _)), (Eval_Not (OrStatement _ _)).
  rewrite (Eval_Not (NotStatement _)).
  rewrite (Eval_And (NotStatement _)), (Eval_Or (NotStatement _)).
  rewrite Eval_And, Eval_Or, !Eval_Not. unfold trace, outcome.
  destruct (Eval op1) as [t1 [[|]|m1]], (Eval op2) as [t2 [[|]|m2]]; done.
Qed.

(** X10. [Eval] goes through the leaves from right to left and skips what
    the short-circuits spare: the leaves it evaluates are, in the order of
    their evaluation, a sublist of the leaves of the statement reversed. *)
Theorem Eval_trace_right_to_left (s : Statement) :
  trace (Eval s) `sublist_of` reverse (leaves s).
Proof.
  induction s as [a IHa|a IHa b IHb|a IHa b IHb|ctx what|ctx what re|ctx what re];
    cbn [leaves]; try done.
  - by rewrite Eval_Not.
  - rewrite Eval_And, reverse_app.
    destruct (outcome (Eval b)) as [[|]|m]; unfold trace at 1; simpl.
    + by apply sublist_app.
    + by apply sublist_inserts_r.
    + by apply sublist_inserts_r.
  - rewrite Eval_Or, reverse_app.
    destruct (outcome (Eval b)) as [[|]|m]; unfold trace at 1; simpl.
    + by apply sublist_inserts_r.
    + by apply sublist_app.
    + by apply sublist_inserts_r.
Qed.

(** X11. A [contains] over [hostname] never panics, and it is true exactly
    when the needle occurs in the hostname of the offer; the hostname of an
    offer that is nil or has none is the empty string. *)
Theorem ContainsStatement_Eval_hostname ctx (needle : string) :
  ∃ b, Eval (ContainsStatement ctx "hostname" needle)
       = ([ContainsStatement ctx "hostname" needle], Ok b)
       ∧ (b = true
          ↔ ∃ p q, GetHostname (ctxOffer ctx) = p ++ needle ++ q).
Proof.
  eexists. split; [reflexivity|]. apply GoStringsLaws.Contains_spec.
Qed.

(** ** User-defined attributes *)

Lemma attributesLoop_none test (what : string) (attrs : list Attribute) :
  (∀ a, a ∈ attrs → GetName a = what → GetType a ≠ Value_TEXT) →
  attributesLoop test what attrs = Ok false.
Proof.
  induction attrs as [|a attrs IH]; intros Hnone; cbn [attributesLoop]; [done|].
  destruct (String.eqb_spec (GetName a) what) as [Hname|_]; simpl.
  - rewrite bool_decide_eq_false_2; [|apply Hnone; [apply elem_of_cons; by left|done]].
    apply IH. intros a' Ha'. apply Hnone. apply elem_of_cons; by right.
  - apply IH. intros a' Ha'. apply Hnone. apply elem_of_cons; by right.
Qed.

Lemma attributesLoop_first test (what : string)
    (pre : list Attribute) attr post (v : string) :
  (∀ a, a ∈ pre → GetName a = what → GetType a ≠ Value_TEXT) →
  GetName attr = what →
  GetType attr = Value_TEXT →
  GetText attr ≫= Text_Value = Some v →
  attributesLoop test what (pre ++ attr :: post)%list = Ok (test v).
Proof.
  intros Hpre Hname Htype Hv.
  induction pre as [|a pre IH]; cbn [app attributesLoop].
  - rewrite Hname, String.eqb_refl, bool_decide_eq_true_2 by done. simpl.
    by rewrite Hv.
  - destruct (String.eqb_spec (GetName a) what) as [Ha|_]; simpl.
    + rewrite bool_decide_eq_false_2; [|apply Hpre; [apply elem_of_cons; by left|done]].
      apply IH. intros a' Ha'. apply Hpre. apply elem_of_cons; by right.
    + apply IH. intros a' Ha'. apply Hpre. apply elem_of_cons; by right.
Qed.

Lemma matchWhat_user test ctx (what : string) o :
  what ≠ "hostname" → what ≠ "agentid" → ctxOffer ctx = Some o →
  matchWhat test ctx what = attributesLoop test what (Attributes o).
Proof.
  intros Hh Ha Ho. unfold matchWhat. rewrite Ho.
  destruct (String.eqb_spec what "hostname"); [done|].
  by destruct (String.eqb_spec what "agentid").
Qed.

(** X12. A missing attribute is false, not a failure: over a name other
    than [hostname] and [agentid], on an offer without a text attribute of
    that name, [contains] answers false, and so does [like] once its pattern
    compiles. An attribute of the name and of another type does not count. *)
Theorem Eval_missing_attribute
    ctx (what needle regex : string) (o : Offer) :
  what ≠ "hostname" → what ≠ "agentid" →
  ctxOffer ctx = Some o →
  (∀ a, a ∈ Attributes o → GetName a = what → GetType a ≠ Value_TEXT) →
  outcome (Eval (ContainsStatement ctx what needle)) = Ok false
  ∧ (is_Some (Compile regex) →
     outcome (Eval (LikeStatement ctx what regex)) = Ok false).
Proof.
  intros Hh Ha Ho Hnone. split.
  - cbn [Eval evalLeaf outcome snd].
    rewrite (matchWhat_user _ _ _ o) by done. by apply attributesLoop_none.
  - intros [r Hr]. cbn [Eval evalLeaf outcome snd]. unfold MustCompile.
    rewrite Hr, (matchWhat_user _ _ _ o) by done. by apply attributesLoop_none.
Qed.

(** X13. The first text attribute of the name decides: [contains] is true
    exactly when the needle occurs in its value, and [like] matches its value
    against the pattern; the attributes after it, and the attributes of the
    name and of another type before it, are not looked at. *)
Theorem Eval_first_text_attribute
    ctx (what needle regex : string) (o : Offer)
    (pre : list Attribute) attr post (v : string) :
  what ≠ "hostname" → what ≠ "agentid" →
  ctxOffer ctx = Some o →
  Attributes o = (pre ++ attr :: post)%list →
  (∀ a, a ∈ pre → GetName a = what → GetType a ≠ Value_TEXT) →
  GetName attr = what →
  GetType attr = Value_TEXT →
  GetText attr ≫= Text_Value = Some v →
  outcome (Eval (ContainsStatement ctx what needle))
    = Ok (GoStrings.Contains v needle)
  ∧ (∀ r, Compile regex = Some r →
          outcome (Eval (LikeStatement ctx what regex))
          = Ok (MatchString r v)).
Proof.
  intros Hh Ha Ho Hattrs Hpre Hname Htype Hv. split.
  - cbn [Eval evalLeaf outcome snd].
    rewrite (matchWhat_user _ _ _ o), Hattrs by done.
    by apply (attributesLoop_first (λ s, GoStrings.Contains s needle)).
  - intros r Hr. cbn [Eval evalLeaf outcome snd]. unfold MustCompile.
    rewrite Hr, (matchWhat_user _ _ _ o), Hattrs by done.
    by apply (attributesLoop_first (MatchString r)).
Qed.

End EvalLaws.

Lemma Eval_missing_attribute_witness :
  outcome (Eval (E:=literalRegexp) (ContainsStatement ctx_two_racks "zone" "z"))
    = Ok false
  ∧ (is_Some (Compile (RegexpEngine:=literalRegexp) "z") →
     outcome (Eval (E:=literalRegexp) (LikeStatement ctx_two_racks "zone" "z"))
     = Ok false).
Proof.
  apply (Eval_missing_attribute (E:=literalRegexp) ctx_two_racks "zone" "z" "z"
           offer_two_racks).
  - discriminate.
  - discriminate.
  - reflexivity.
  - intros a Ha Hname. simpl in Ha.
    apply elem_of_cons in Ha as [->|Ha]; [discriminate Hname|].
    apply list_elem_of_singleton in Ha as ->. discriminate Hname.
Defined.

Lemma Eval_first_text_attribute_witness :
  outcome (Eval (E:=literalRegexp) (ContainsStatement ctx_two_racks "rack" "7"))
    = Ok (GoStrings.Contains "r7" "7")
  ∧ (∀ r, Compile (RegexpEngine:=literalRegexp) "r" = Some r →
          outcome (Eval (E:=literalRegexp) (LikeStatement ctx_two_racks "rack" "r"))
          = Ok (MatchString (RegexpEngine:=literalRegexp) r "r7")).
Proof.
  apply (Eval_first_text_attribute (E:=literalRegexp) ctx_two_racks
           "rack" "7" "r" offer_two_racks
           [ {| Attribute_Name := Some "rack";
                Attribute_Type := Some Value_SCALAR;
                Attribute_Text := None |} ]
           {| Attribute_Name := Some "rack";
              Attribute_Type := Some Value_TEXT;
              Attribute_Text := Some {| Text_Value := Some "r7" |} |}
           []).
  - discriminate.
  - discriminate.
  - reflexivity.
  - reflexivity.
  - intros a Ha _. apply list_elem_of_singleton in Ha as ->. discriminate.
  - reflexivity.
  - reflexivity.
  - reflexivity.
Defined.

(** The statement [like_and_not_contains] is valid, its pattern compiles and
    its offer has an agent: its evaluation has a result. *)
Lemma Eval_valid_safe_witness :
  ∃ b, outcome (Eval (E:=literalRegexp) like_and_not_contains) = Ok b.
Proof.
  apply (Eval_valid_safe (E:=literalRegexp) like_and_not_contains).
  - reflexivity.
  - intros l Hl. simpl in Hl.
    apply elem_of_cons in Hl as [->|Hl].
    + split; [by eexists | discriminate].
    + apply list_elem_of_singleton in Hl as ->. intros _. reflexivity.
Defined.

End ConstraintsLaws.

(** * More on the upstream registry *)

Module JanitorLaws.

Import Janitor Examples JanitorFacts.

(** ** Helpers on lists *)

Lemma list_find_snoc {A} (P : A → Prop) `{∀ x, Decision (P x)}
    (l : list A) (x : A) :
  (∀ y, y ∈ l → ¬ P y) → P x →
  list_find P (l ++ [x]) = Some (length l, x).
Proof.
  intros Hl Hx. apply list_find_Some. split; [|split; [done|]].
  - by rewrite lookup_app_r, Nat.sub_diag.
  - intros j y Hj Hlt. rewrite lookup_app_l in Hj by done.
    apply Hl, list_elem_of_lookup. eauto.
Qed.

Lemma list_elem_of_delete_lookup {A} (l : list A) (i : nat) (x : A) :
  x ∈ delete i l → ∃ j, j ≠ i ∧ l !! j = Some x.
Proof.
  intros [j Hj]%list_elem_of_lookup. destruct (decide (j < i)).
  - rewrite list_lookup_delete_lt in Hj by done. exists j. split; [lia|done].
  - rewrite list_lookup_delete_ge in Hj by lia. exists (S j). split; [lia|done].
Qed.

Lemma NoDup_not_elem_of_delete {A} (l : list A) (i : nat) (x : A) :
  NoDup l → l !! i = Some x → x ∉ delete i l.
Proof.
  intros Hnd Hi (j & Hne & Hj)%list_elem_of_delete_lookup.
  destruct Hne. by eapply NoDup_lookup.
Qed.

Lemma firstBalancer_sound : balancer_sound firstBalancer.
Proof.
  intros store [|t' targets] t; simpl; [done|].
  intros [= ->]. apply elem_of_cons. by left.
Qed.

(** ** [Target.valid] *)

(** X14. [valid] answers nil for exactly the targets that have an
    application identifier, an address, and a port other than zero, and
    whose task identifier is some prefix followed by ["-"] and the
    application identifier (which makes it non-empty); it refuses the nil
    target. *)
Theorem valid_iff (t : Target.t) :
  (valid (Some t) = None
   ↔ Target.AppID t ≠ "" ∧ Target.TaskIP t ≠ "" ∧ Target.TaskPort t ≠ 0%N
     ∧ ∃ prefix, Target.TaskID t = prefix ++ "-" ++ Target.AppID t)
  ∧ valid None = Some "nil targte".
Proof.
  split; [|done]. unfold valid.
  destruct (String.eqb_spec (Target.AppID t) "") as [Happ|Happ]; simpl.
  { split; [done | by intros [? _]]. }
  destruct (String.eqb_spec (Target.TaskID t) "") as [Htask|Htask]; simpl.
  { split; [done|]. intros (_ & _ & _ & prefix & Hp). rewrite Htask in Hp.
    by destruct prefix. }
  destruct (String.eqb_spec (Target.TaskIP t) "") as [Hip|Hip]; simpl.
  { split; [done | by intros (_ & ? & _)]. }
  destruct (N.eqb_spec (Target.TaskPort t) 0) as [Hport|Hport]; simpl.
  { split; [done | by intros (_ & _ & ? & _)]. }
  destruct (GoStrings.HasSuffix _ _) eqn:Hsuf; simpl.
  - apply GoStringsFacts.HasSuffix_spec in Hsuf. done.
  - split; [done|]. intros (_ & _ & _ & Hp).
    apply GoStringsFacts.HasSuffix_spec in Hp. congruence.
Qed.

(** ** [upsertTarget] *)

Section Upsert.

Variable WeightBalancer : Balancer.

Lemma upsertTarget_cases us target tg :
  store us !! target = Some tg →
  upsertTarget WeightBalancer us target
  = match getUpstreamByID us (Target.AppID tg) with
    | None =>
        match getUpstreamByAlias us (Target.AppAlias tg) with
        | Some _ =>
            (Ok (Some ("alias [" ++ Target.AppAlias tg ++ "] conflict")), us)
        | None =>
            (Ok None,
             setUpstreams us
               (upstreams us ++
                [setTargets
                   (newUpstream WeightBalancer (Target.AppID tg)
                      (Target.AppAlias tg)) [target]]))
        end
    | Some (i, u) =>
        match Upstream_getTarget (store us) u (Target.TaskID tg) with
        | None =>
            (Ok None,
             setUpstreams us
               (<[i := setTargets u (Upstream.Targets u ++ [target])]>
                  (upstreams us)))
        | Some (_, t) =>
            (Ok None,
             {| store := alter (updateTarget tg) t (store us);
                upstreams := upstreams us |})
        end
    end.
Proof. intros Htg. unfold upsertTarget. by rewrite Htg. Qed.

Lemma getUpstreamByID_store us store' (appID : string) :
  getUpstreamByID {| store := store'; upstreams := upstreams us |} appID
  = getUpstreamByID us appID.
Proof. done. Qed.

Lemma Upstream_getTarget_alter store u (taskID : string) tg t :
  Upstream_getTarget (alter (updateTarget tg) t store) u taskID
  = Upstream_getTarget store u taskID.
Proof.
  unfold Upstream_getTarget. apply list_find_ext. intros v.
  destruct (decide (v = t)) as [->|Hne].
  - rewrite lookup_alter_eq. by destruct (store !! t).
  - by rewrite lookup_alter_ne.
Qed.

(** X15. Insert, then look up: after a call of [upsertTarget] that answered
    nil, [getTarget] of the application and of the task of the target finds
    a target of that task which has the version, the address, the port and
    the weight of the one given, be it the one given or an older one
    updated. *)
Theorem upsertTarget_getTarget us target tg us' :
  store us !! target = Some tg →
  upsertTarget WeightBalancer us target = (Ok None, us') →
  ∃ t tg',
    getTarget us' (Target.AppID tg) (Target.TaskID tg) = Some t
    ∧ store us' !! t = Some tg'
    ∧ Target.TaskID tg' = Target.TaskID tg
    ∧ Target.VersionID tg' = Target.VersionID tg
    ∧ Target.AppVersion tg' = Target.AppVersion tg
    ∧ Target.TaskIP tg' = Target.TaskIP tg
    ∧ Target.TaskPort tg' = Target.TaskPort tg
    ∧ Target.Weight tg' = Target.Weight tg.
Proof.
  intros Htg. rewrite (upsertTarget_cases _ _ _ Htg).
  destruct (getUpstreamByID us (Target.AppID tg)) as [[i u]|] eqn:Hu.
  - apply getUpstreamByID_Some in Hu.
    destruct (Upstream_getTarget (store us) u (Target.TaskID tg))
      as [[k t]|] eqn:Ht.
    + intros [= <-]. unfold getTarget.
      rewrite getUpstreamByID_store, (proj2 (getUpstreamByID_Some us _ i u) Hu).
      cbn [store]. rewrite Upstream_getTarget_alter, Ht.
      apply Upstream_getTarget_Some in Ht as (_ & Hold & _).
      destruct (store us !! t) as [old|] eqn:Hst; [|done].
      injection Hold as Hold.
      exists t, (updateTarget tg old). rewrite lookup_alter_eq, Hst. done.
    + intros [= <-]. exists target, tg. unfold getTarget.
      rewrite (proj2 (getUpstreamByID_Some _ _ i _)
                 (first_upstream_insert us _ i u
                    (setTargets u (Upstream.Targets u ++ [target])) Hu eq_refl)).
      cbn [store setUpstreams]. unfold Upstream_getTarget. cbn [fmap option_fmap option_map snd]. cbn [setTargets Upstream.Targets].
      rewrite list_find_snoc; [by rewrite Htg | | by rewrite Htg].
      by apply Upstream_getTarget_None.
  - destruct (getUpstreamByAlias us (Target.AppAlias tg)); [done|].
    intros [= <-]. exists target, tg. unfold getTarget, getUpstreamByID. simpl.
    rewrite list_find_snoc; [|by apply getUpstreamByID_None|done].
    simpl. unfold Upstream_getTarget. simpl.
    rewrite decide_True by (by rewrite Htg). done.
Qed.

(** X16. An update in place is seen through the sessions: where a session of
    the upstream points to the target of the task, after [upsertTarget] of
    a new version of that task the lookup of the address still answers that
    pointer, and the target it points to has the address and the port of
    the new version. *)
Theorem upsertTarget_seen_by_session
    us target tg i u k t (remoteIP taskID : string) now :
  store us !! target = Some tg →
  first_upstream us (Target.AppID tg) i u →
  first_target (store us) u (Target.TaskID tg) k t →
  Sessions.get (Upstream.sessions u) remoteIP = Some t →
  (lookup (upsertTarget WeightBalancer us target).2
     remoteIP (Target.AppID tg) taskID now).1 = Some t
  ∧ Target.TaskIP <$> store (upsertTarget WeightBalancer us target).2 !! t
    = Some (Target.TaskIP tg)
  ∧ Target.TaskPort <$> store (upsertTarget WeightBalancer us target).2 !! t
    = Some (Target.TaskPort tg)
  ∧ Target.VersionID <$> store (upsertTarget WeightBalancer us target).2 !! t
    = Some (Target.VersionID tg).
Proof.
  intros Htg Hu Ht Hget. rewrite (upsertTarget_cases _ _ _ Htg).
  rewrite (proj2 (getUpstreamByID_Some _ _ _ _) Hu).
  rewrite (proj2 (Upstream_getTarget_Some _ _ _ _ _) Ht). simpl.
  destruct Ht as (_ & Hold & _).
  destruct (store us !! t) as [old|] eqn:Hst; [|done].
  split.
  - rewrite (lookup_unfold _ _ _ _ _ i u); [by rewrite Hget | apply Hu].
  - by rewrite lookup_alter_eq, Hst.
Qed.

End Upsert.

Lemma upsertTarget_getTarget_witness :
  ∃ t tg',
    getTarget (upsertTarget firstBalancer registry_A 2).2 "A" "0-A" = Some t
    ∧ store (upsertTarget firstBalancer registry_A 2).2 !! t = Some tg'
    ∧ Target.TaskID tg' = "0-A"
    ∧ Target.VersionID tg' = "v2"
    ∧ Target.AppVersion tg' = "2"
    ∧ Target.TaskIP tg' = "10.0.0.9"
    ∧ Target.TaskPort tg' = 81%N
    ∧ Target.Weight tg' = 3%N.
Proof.
  apply (upsertTarget_getTarget firstBalancer registry_A 2 target_A').
  - reflexivity.
  - vm_compute. reflexivity.
Defined.

Lemma upsertTarget_seen_by_session_witness :
  (lookup (upsertTarget firstBalancer registry_A2 2).2 "1.2.3.4" "A" "" 9).1
    = Some 0
  ∧ Target.TaskIP <$> store (upsertTarget firstBalancer registry_A2 2).2 !! 0
    = Some "10.0.0.9"
  ∧ Target.TaskPort <$> store (upsertTarget firstBalancer registry_A2 2).2 !! 0
    = Some 81%N
  ∧ Target.VersionID <$> store (upsertTarget firstBalancer registry_A2 2).2 !! 0
    = Some "v2".
Proof.
  apply (upsertTarget_seen_by_session firstBalancer registry_A2 2 target_A'
           0 upstream_A2 0 0 "1.2.3.4" "" 9).
  - reflexivity.
  - split; [reflexivity|]. split; [reflexivity|]. intros j v _ Hlt. lia.
  - split; [reflexivity|]. split; [reflexivity|]. intros j v _ Hlt. lia.
  - reflexivity.
Defined.

(** ** The shape of the registry *)

Lemma fmap_insert_same {A B} (f : A → B) (l : list A) (i : nat) (x y : A) :
  l !! i = Some x → f y = f x → f <$> <[i := y]> l = f <$> l.
Proof.
  intros Hi Hf. rewrite list_fmap_insert. apply list_insert_id.
  by rewrite list_lookup_fmap, Hi, Hf.
Qed.

Lemma list_elem_of_insert_lookup {A} (l : list A) (i : nat) (x y : A) :
  y ∈ <[i := x]> l → y = x ∨ ∃ j, j ≠ i ∧ l !! j = Some y.
Proof.
  intros [j Hj]%list_elem_of_lookup.
  apply list_lookup_insert_Some in Hj as [(_ & -> & _)|[Hne Hj]]; [by left|].
  right. exists j. split; [lia|done].
Qed.

Lemma removeTarget_cases us target tg i u k t0 :
  store us !! target = Some tg →
  first_upstream us (Target.AppID tg) i u →
  first_target (store us) u (Target.TaskID tg) k t0 →
  removeTarget us target
  = (Ok (),
     setUpstreams us
       (if (length (delete k (Upstream.Targets u)) =? 0)%nat
        then delete i (upstreams us)
        else <[i := setSessions
                      (setTargets u (delete k (Upstream.Targets u)))
                      (Sessions.remove (store us) (Upstream.sessions u)
                         (Target.TaskID tg))]>
               (upstreams us))).
Proof.
  intros Htg Hu%getUpstreamByID_Some Ht%Upstream_getTarget_Some.
  unfold removeTarget. rewrite Htg, Hu, Ht. simpl.
  by destruct (Nat.eqb _ 0).
Qed.

Section Shape.

Variable WeightBalancer : Balancer.

Lemma upsertTarget_wf us target :
  registry_wf us → registry_wf (upsertTarget WeightBalancer us target).2.
Proof.
  intros (Hid & Hal & Hts).
  destruct (store us !! target) as [tg|] eqn:Htg;
    [|unfold upsertTarget; by rewrite Htg].
  rewrite (upsertTarget_cases _ _ _ _ Htg).
  destruct (getUpstreamByID us (Target.AppID tg)) as [[i u]|] eqn:Hu.
  - apply getUpstreamByID_Some in Hu. pose proof Hu as (Hi & _ & _).
    destruct (Upstream_getTarget _ _ _) as [[k t]|] eqn:Ht; [done|].
    unfold registry_wf. simpl.
    rewrite !(fmap_insert_same _ _ _ u) by done.
    split; [done|]. split; [done|].
    intros v [->|Hv]%list_elem_of_insert_inv; [|by apply Hts].
    destruct (Hts u) as [Hne Hnd]; [by eapply first_upstream_elem_of|].
    simpl. split; [by destruct (Upstream.Targets u)|].
    apply NoDup_app. split; [done|]. split; [|apply NoDup_singleton].
    intros x Hx ->%list_elem_of_singleton.
    apply (proj1 (Upstream_getTarget_None _ _ _) Ht _ Hx). by rewrite Htg.
  - destruct (getUpstreamByAlias us (Target.AppAlias tg)) eqn:Ha; [done|].
    unfold registry_wf. simpl. rewrite !fmap_app. simpl.
    split; [|split].
    + apply NoDup_app. split; [done|]. split; [|apply NoDup_singleton].
      intros x (v & -> & Hv)%list_elem_of_fmap ?%list_elem_of_singleton.
      by apply (proj1 (getUpstreamByID_None _ _) Hu v).
    + apply NoDup_app. split; [done|]. split; [|apply NoDup_singleton].
      intros x (v & -> & Hv)%list_elem_of_fmap ?%list_elem_of_singleton.
      by apply (proj1 (getUpstreamByAlias_None _ _) Ha v).
    + intros v [Hv| ->%list_elem_of_singleton]%elem_of_app; [by apply Hts|].
      simpl. split; [done | apply NoDup_singleton].
Qed.

Lemma removeTarget_wf us target :
  registry_wf us → registry_wf (removeTarget us target).2.
Proof.
  intros (Hid & Hal & Hts).
  destruct (store us !! target) as [tg|] eqn:Htg;
    [|unfold removeTarget; by rewrite Htg].
  destruct (getUpstreamByID us (Target.AppID tg)) as [[i u]|] eqn:Hu;
    [|unfold removeTarget; by rewrite Htg, Hu].
  destruct (Upstream_getTarget (store us) u (Target.TaskID tg))
    as [[k t0]|] eqn:Ht;
    [|unfold removeTarget; by rewrite Htg, Hu, Ht].
  apply getUpstreamByID_Some in Hu. apply Upstream_getTarget_Some in Ht.
  rewrite (removeTarget_cases _ _ _ _ _ _ _ Htg Hu Ht).
  pose proof Hu as (Hi & _ & _).
  destruct (Hts u) as [Hne Hnd]; [by eapply first_upstream_elem_of|].
  unfold registry_wf. simpl.
  destruct (Nat.eqb_spec (length (delete k (Upstream.Targets u))) 0)
    as [Hlen|Hlen].
  - rewrite !list_fmap_delete. split; [|split].
    + apply (sublist_NoDup _ _ Hid), sublist_delete.
    + apply (sublist_NoDup _ _ Hal), sublist_delete.
    + intros v Hv%list_elem_of_delete_inv. by apply Hts.
  - rewrite !(fmap_insert_same _ _ _ u) by done.
    split; [done|]. split; [done|].
    intros v [->|Hv]%list_elem_of_insert_inv; [|by apply Hts].
    simpl. split.
    + by destruct (delete k (Upstream.Targets u)).
    + apply (sublist_NoDup _ _ Hnd), sublist_delete.
Qed.

Lemma lookup_wf us (remoteIP appID taskID : string) now :
  registry_wf us → registry_wf (lookup us remoteIP appID taskID now).2.
Proof.
  intros (Hid & Hal & Hts).
  destruct (lookup us remoteIP appID taskID now) as [[t|] us'] eqn:Hlookup;
    [|by rewrite (lookup_None _ _ _ _ _ _ Hlookup)].
  destruct (lookup_Some _ _ _ _ _ _ _ Hlookup) as (i & u & Hu & ->).
  pose proof Hu as (Hi & _ & _).
  unfold registry_wf. simpl. rewrite !(fmap_insert_same _ _ _ u) by done.
  split; [done|]. split; [done|].
  intros v [->|Hv]%list_elem_of_insert_inv; [|by apply Hts].
  apply (Hts u). by eapply first_upstream_elem_of.
Qed.

(** X17. The shape of every registry the calls lead to from the empty one:
    no two upstreams of one application, no two upstreams of one alias, no
    upstream without a target, and no pointer twice among the targets of an
    upstream; whatever the callers write into the targets. *)
Theorem reachable_wf us : reachable WeightBalancer us → registry_wf us.
Proof.
  induction 1 as [store|us store' _ IH|us target _ IH
                 |us target _ IH|us ip appID taskID now _ IH
                 |us ip alias now _ IH].
  - unfold registry_wf. simpl. split; [constructor|]. split; [constructor|].
    by intros u ?%elem_of_nil.
  - exact IH.
  - by apply upsertTarget_wf.
  - by apply removeTarget_wf.
  - by apply lookup_wf.
  - unfold lookupAlias. destruct (getUpstreamByAlias us alias) as [[i u]|];
      [by apply lookup_wf | done].
Qed.

(** ** [removeTarget] *)

Lemma removeTarget_not_elem_of us target tg i u k t0 v :
  registry_wf us →
  store us !! target = Some tg →
  first_upstream us (Target.AppID tg) i u →
  first_target (store us) u (Target.TaskID tg) k t0 →
  v ∈ upstreams (removeTarget us target).2 →
  Upstream.AppID v = Target.AppID tg →
  t0 ∉ Upstream.Targets v.
Proof.
  intros (Hid & _ & Hts) Htg Hu Ht.
  rewrite (removeTarget_cases _ _ _ _ _ _ _ Htg Hu Ht). simpl.
  destruct Hu as (Hi & Happ & _).
  assert (∀ j w, j ≠ i → upstreams us !! j = Some w →
                 Upstream.AppID w ≠ Target.AppID tg) as Hother.
  { intros j w Hne Hj Hw. destruct Hne.
    apply (NoDup_lookup _ j i (Target.AppID tg) Hid);
      rewrite list_lookup_fmap; [by rewrite Hj, <- Hw | by rewrite Hi, <- Happ]. }
  destruct (Nat.eqb _ 0).
  - intros (j & Hne & Hj)%list_elem_of_delete_lookup Hv.
    by destruct (Hother j v).
  - intros [->|(j & Hne & Hj)]%list_elem_of_insert_lookup Hv.
    + simpl. destruct Ht as (Hk & _). apply NoDup_not_elem_of_delete; [|done].
      apply (Hts u). apply list_elem_of_lookup. eauto.
    + by destruct (Hother j v).
Qed.

(** X18. After [removeTarget] the pointer is gone for the application: no
    upstream of the application holds it, and no lookup of the application
    answers it, by a session, by the task or by the balancer. *)
Theorem removeTarget_lookup us target tg i u k t0 :
  balancer_sound WeightBalancer →
  registry_inv WeightBalancer us →
  registry_wf us →
  store us !! target = Some tg →
  first_upstream us (Target.AppID tg) i u →
  first_target (store us) u (Target.TaskID tg) k t0 →
  (∀ v, v ∈ upstreams (removeTarget us target).2 →
        Upstream.AppID v = Target.AppID tg → t0 ∉ Upstream.Targets v)
  ∧ ∀ (remoteIP taskID : string) now,
      (lookup (removeTarget us target).2 remoteIP (Target.AppID tg)
         taskID now).1 ≠ Some t0.
Proof.
  intros Hsound Hinv Hwf Htg Hu Ht. split.
  - intros v. by eapply removeTarget_not_elem_of.
  - intros remoteIP taskID now.
    destruct (lookup _ remoteIP _ taskID now) as [[t|] us'] eqn:Hlookup;
      [|done].
    destruct (lookup_Some _ _ _ _ _ _ _ Hlookup) as (i' & u' & Hu' & _).
    simpl. intros [= ->].
    eapply (removeTarget_not_elem_of us target tg i u k t0 u'); try done.
    + by eapply first_upstream_elem_of.
    + apply Hu'.
    + eapply (lookup_target_elem_of WeightBalancer Hsound); [|done..].
      by apply removeTarget_inv.
Qed.

End Shape.

(** X19. A call of [removeTarget] for an application that is not registered,
    or for a task its upstream does not have, answers and changes nothing;
    with the nil target it panics. *)
Theorem removeTarget_unknown us target tg :
  store us !! target = Some tg →
  (∀ u, u ∈ upstreams us → Upstream.AppID u ≠ Target.AppID tg)
  ∨ (∃ i u, first_upstream us (Target.AppID tg) i u
            ∧ ∀ t, t ∈ Upstream.Targets u →
                Target.TaskID <$> store us !! t ≠ Some (Target.TaskID tg)) →
  removeTarget us target = (Ok (), us).
Proof.
  intros Htg Hcase. unfold removeTarget. rewrite Htg.
  destruct Hcase as [Hid%getUpstreamByID_None|(i & u & Hu & Ht)].
  - by rewrite Hid.
  - apply getUpstreamByID_Some in Hu. apply Upstream_getTarget_None in Ht.
    by rewrite Hu, Ht.
Qed.

Lemma removeTarget_unknown_witness :
  removeTarget registry_A 1 = (Ok (), registry_A).
Proof.
  apply (removeTarget_unknown registry_A 1 target_B); [reflexivity|].
  left. intros u Hu. apply list_elem_of_singleton in Hu. subst u. discriminate.
Defined.

(** ** [lookup] and [lookupAlias] *)

(** X20. [lookup] writes sessions and nothing else: the targets in the
    store, and the applications, the aliases and the targets of the
    upstreams are after the call what they were before it. *)
Theorem lookup_only_sessions us (remoteIP appID taskID : string) now :
  store (lookup us remoteIP appID taskID now).2 = store us
  ∧ Upstream.AppID <$> upstreams (lookup us remoteIP appID taskID now).2
    = Upstream.AppID <$> upstreams us
  ∧ Upstream.AppAlias <$> upstreams (lookup us remoteIP appID taskID now).2
    = Upstream.AppAlias <$> upstreams us
  ∧ Upstream.Targets <$> upstreams (lookup us remoteIP appID taskID now).2
    = Upstream.Targets <$> upstreams us.
Proof.
  destruct (lookup us remoteIP appID taskID now) as [[t|] us'] eqn:Hlookup;
    [|by rewrite (lookup_None _ _ _ _ _ _ Hlookup)].
  destruct (lookup_Some _ _ _ _ _ _ _ Hlookup) as (i & u & (Hi & _) & ->).
  simpl. by rewrite !(fmap_insert_same _ _ _ u).
Qed.

(** X21. With one upstream for an application, a call of [lookupAlias]
    that answers a target answers a target of the first upstream of the alias,
    and binds the session of the address to it there. *)
Theorem lookupAlias_Some
    WeightBalancer us (remoteIP appAlias : string) now t us' :
  balancer_sound WeightBalancer →
  registry_inv WeightBalancer us →
  NoDup (Upstream.AppID <$> upstreams us) →
  lookupAlias us remoteIP appAlias now = (Some t, us') →
  ∃ i u,
    getUpstreamByAlias us appAlias = Some (i, u)
    ∧ t ∈ Upstream.Targets u
    ∧ us' = setUpstreams us
              (<[i := setSessions u
                        (Sessions.update (Upstream.sessions u) remoteIP t now)]>
                 (upstreams us)).
Proof.
  intros Hsound Hinv Hnd. unfold lookupAlias.
  destruct (getUpstreamByAlias us appAlias) as [[i u]|] eqn:Ha; [|done].
  intros Hlookup.
  destruct (lookup_Some _ _ _ _ _ _ _ Hlookup) as (j & u2 & Hu2 & ->).
  pose proof (lookup_target_elem_of WeightBalancer Hsound _ _ _ _ _ _ _ _ _
                Hinv Hu2 Hlookup) as Ht.
  apply list_find_Some in Ha as (Hi & _ & _).
  destruct Hu2 as (Hj & Happ & _).
  assert (j = i) as ->.
  { apply (NoDup_lookup _ j i (Upstream.AppID u) Hnd);
      rewrite list_lookup_fmap; [by rewrite Hj, <- Happ | by rewrite Hi]. }
  assert (u2 = u) as -> by congruence.
  by exists i, u.
Qed.

(** ** [allSess] *)

Lemma allSess_list (l : list Upstream.t) (appID : string) :
  NoDup (Upstream.AppID <$> l) →
  foldl (λ ret u, <[Upstream.AppID u := Upstream.sessions u]> ret)
    (∅ : gmap string Sessions.t) l !! appID
  = (Upstream.sessions ∘ snd) <$> list_find (λ v, Upstream.AppID v = appID) l.
Proof.
  induction l as [|u l IH] using rev_ind; intros Hnd; [done|].
  rewrite fmap_app in Hnd. apply NoDup_app in Hnd as (Hl & Hu & _).
  rewrite foldl_app. simpl.
  destruct (decide (Upstream.AppID u = appID)) as [<-|Hne].
  - rewrite lookup_insert_eq, list_find_snoc; [done| |done].
    intros y Hy Heq. apply (Hu (Upstream.AppID y)).
    + apply list_elem_of_fmap. eauto.
    + rewrite Heq. apply list_elem_of_singleton. done.
  - rewrite lookup_insert_ne, IH by done.
    destruct (list_find _ l) as [[j x]|] eqn:Hf.
    + by erewrite list_find_app_l.
    + rewrite list_find_app_r by done. simpl. by rewrite decide_False.
Qed.

(** X22. With one upstream for an application, [allSess] holds for every
    application the sessions of the upstream [getUpstreamByID] finds, and
    nothing for an application that is not registered. *)
Theorem allSess_getUpstreamByID us (appID : string) :
  NoDup (Upstream.AppID <$> upstreams us) →
  allSess us !! appID
  = (Upstream.sessions ∘ snd) <$> getUpstreamByID us appID.
Proof. apply allSess_list. Qed.

(** ** Witnesses *)

Lemma registry_A2_reachable : reachable firstBalancer registry_A2.
Proof.
  assert (registry_A2
          = (lookup
               (upsertTarget firstBalancer
                  (upsertTarget firstBalancer
                     {| store := store1; upstreams := [] |} 0).2 4).2
               "1.2.3.4" "A" "" 5).2) as ->
    by (vm_compute; reflexivity).
  apply reach_lookup, reach_upsertTarget, reach_upsertTarget, reach_empty.
Qed.

Lemma registry_A2_wf : registry_wf registry_A2.
Proof.
  split; [apply NoDup_singleton|]. split; [apply NoDup_singleton|].
  intros u ->%list_elem_of_singleton. split; [done|].
  apply NoDup_cons. split; [|apply NoDup_singleton].
  by intros [=]%list_elem_of_singleton.
Qed.

Lemma first_upstream_registry_A2 : first_upstream registry_A2 "A" 0 upstream_A2.
Proof. split; [done|]. split; [done|]. intros j v _ Hlt. lia. Qed.

Lemma reachable_wf_witness :
  registry_wf (upsertTarget firstBalancer registry_empty 0).2.
Proof.
  apply (reachable_wf firstBalancer).
  apply reach_upsertTarget. apply (reach_empty firstBalancer store0).
Defined.

Lemma reachable_sessions_live_witness : 0 ∈ Upstream.Targets upstream_A2.
Proof.
  apply (reachable_sessions_live firstBalancer firstBalancer_sound
           registry_A2 registry_A2_reachable upstream_A2 "1.2.3.4" 0).
  - apply list_elem_of_singleton. reflexivity.
  - reflexivity.
Defined.

Lemma lookup_affinity_witness :
  (lookup (lookup registry_A "1.2.3.4" "A" "" 5).2 "1.2.3.4" "A" "" 6).1
  = Some 0.
Proof.
  apply (lookup_affinity registry_A "1.2.3.4" "A" "" "" 5 6 0).
  vm_compute. reflexivity.
Defined.

Lemma removeTarget_lookup_witness :
  (∀ v, v ∈ upstreams (removeTarget registry_A2 0).2 →
        Upstream.AppID v = "A" → 0 ∉ Upstream.Targets v)
  ∧ ∀ (remoteIP taskID : string) now,
      (lookup (removeTarget registry_A2 0).2 remoteIP "A" taskID now).1
      ≠ Some 0.
Proof.
  apply (removeTarget_lookup firstBalancer registry_A2 0 target_A
           0 upstream_A2 0 0).
  - exact firstBalancer_sound.
  - exact (reachable_inv firstBalancer firstBalancer_sound registry_A2
             registry_A2_reachable).
  - exact registry_A2_wf.
  - reflexivity.
  - exact first_upstream_registry_A2.
  - split; [reflexivity|]. split; [reflexivity|]. intros j v _ Hlt. lia.
Defined.

Lemma lookupAlias_Some_witness :
  ∃ i u,
    getUpstreamByAlias registry_A2 "foo" = Some (i, u)
    ∧ 0 ∈ Upstream.Targets u
    ∧ (lookupAlias registry_A2 "1.2.3.4" "foo" 8).2
      = setUpstreams registry_A2
          (<[i := setSessions u
                    (Sessions.update (Upstream.sessions u) "1.2.3.4" 0 8)]>
             (upstreams registry_A2)).
Proof.
  apply (lookupAlias_Some firstBalancer registry_A2 "1.2.3.4" "foo" 8 0).
  - exact firstBalancer_sound.
  - exact (reachable_inv firstBalancer firstBalancer_sound registry_A2
             registry_A2_reachable).
  - apply NoDup_singleton.
  - vm_compute. reflexivity.
Defined.

Lemma allSess_getUpstreamByID_witness :
  allSess registry_A2 !! "A"
  = (Upstream.sessions ∘ snd) <$> getUpstreamByID registry_A2 "A".
Proof.
  apply (allSess_getUpstreamByID registry_A2 "A"). apply NoDup_singleton.
Defined.

End JanitorLaws.
